(** * Scoutlist: the playlist aggregator of [scoutlist.py]

    A shallow embedding of the track model ([Track], [TrackAddedAt]), of the
    paged generator [tracks_iterator] and of the two aggregation loops
    [aggregate_excluded_tracks] and [aggregate_source_tracks], followed by
    the properties of the bounded most-recent-first selection. *)

From Equations Require Import Equations.
From stdpp Require Import gmap strings list sorting.

Open Scope Z_scope.
Set Warnings "-clear-no-such-hyp".

(** ** Exceptions and results

    The three exceptions the modelled code can raise: [ParserError] from
    [dateutil.parser.parse], [KeyError] from [item['added_at']] on a record
    fetched without that field, and [IndexError] from [included_tracks[-1]]
    on an empty list. *)

Inductive exn : Set := ParserError | KeyError | IndexError.

Inductive result (A : Type) : Type :=
| Ok (a : A)
| Raise (e : exn).
Arguments Ok {A} a.
Arguments Raise {A} e.

Global Instance result_ret : MRet result := λ A a, Ok a.
Global Instance result_bind : MBind result := λ A B k r,
  match r with
  | Ok a => k a
  | Raise e => Raise e
  end.
Global Instance result_fmap : FMap result := λ A B f r,
  match r with
  | Ok a => Ok (f a)
  | Raise e => Raise e
  end.

(** A generator is observed as the values it yields followed, possibly, by
    the exception that ends it.  The consumer sees each value before the
    generator is resumed, so an exception of the loop body on an earlier
    value wins over a later failure of the generator. *)

Record Stream (A : Type) : Type :=
  MkStream { yielded : list A; failure : option exn }.
Arguments MkStream {A} yielded failure.
Arguments yielded {A} s.
Arguments failure {A} s.

Definition stream_app {A} (s1 s2 : Stream A) : Stream A :=
  match failure s1 with
  | Some _ => s1
  | None => MkStream (yielded s1 ++ yielded s2) (failure s2)
  end.

Fixpoint foldM {A S} (body : S → A → result S) (s : S) (l : list A) : result S :=
  match l with
  | [] => Ok s
  | x :: l' => s' ← body s x; foldM body s' l'
  end.

(** [for x in g: body] *)
Definition for_each {A S} (g : Stream A) (body : S → A → result S) (s : S)
  : result S :=
  s' ← foldM body s (yielded g);
  match failure g with
  | None => Ok s'
  | Some e => Raise e
  end.

(** ** Raw records and the track classes *)

(** One element of [results['items']]: [item['track']['id']] (null for a
    local file), [item['track']['name']], the ids of
    [item['track']['artists']] and [item['added_at']], which is only there
    when the field was requested. *)
Record Item : Type := MkItem {
  item_track_id : option string;
  item_track_name : string;
  item_artists : list string;
  item_added_at : option string
}.

Record Playlist : Type := MkPlaylist {
  pl_track_name : string;
  owner_id : string;
  playlist_id : string
}.

(** [Track.__key]: the pair that [__eq__] and [__hash__] read. *)
Abbreviation TrackKey := (string * gset string)%type.

Record Track : Type := MkTrack {
  track_id : option string;
  track_name : string;
  artist_ids : gset string
}.

(** [Track.__init__] *)
Definition Track_init (item : Item) : Track :=
  {| track_id := item_track_id item;
     track_name := item_track_name item;
     artist_ids := list_to_set (item_artists item) |}.

Definition Track_key (t : Track) : TrackKey := (track_name t, artist_ids t).

(** [Track.__eq__] *)
Definition Track_eq (a b : Track) : bool :=
  bool_decide (track_name a = track_name b) &&
  bool_decide (artist_ids a = artist_ids b).

(** [TrackAddedAt]: a [Track] with the parsed [added_at].  A datetime is
    modelled by its instant on the time line, an integer; the parser is
    taken to return datetimes that compare with one another. *)
Record TrackAddedAt : Type := MkTrackAddedAt {
  as_track : Track;
  added_at : Z
}.

Definition key (t : TrackAddedAt) : TrackKey := Track_key (as_track t).

(** [TrackAddedAt.__lt__] *)
Definition TrackAddedAt_lt (a b : TrackAddedAt) : bool :=
  added_at a <? added_at b.

Global Instance exn_eq_dec : EqDecision exn.
Proof. solve_decision. Defined.
Global Instance result_eq_dec {A} `{EqDecision A} : EqDecision (result A).
Proof. solve_decision. Defined.
Global Instance Item_eq_dec : EqDecision Item.
Proof. solve_decision. Defined.
Global Instance Playlist_eq_dec : EqDecision Playlist.
Proof. solve_decision. Defined.
Global Instance Track_eq_dec : EqDecision Track.
Proof. solve_decision. Defined.
Global Instance TrackAddedAt_eq_dec : EqDecision TrackAddedAt.
Proof. solve_decision. Defined.

(** ** The remote session *)

(** Modelled from the spec: the session object of [spotipy], which is not
    part of the repository.  A session is given by the records of the
    playlists it serves, by owner and playlist id. *)
Definition Session : Type := string → string → list Item.

Record Page : Type := MkPage { items : list Item; total : nat }.

(** Modelled from the spec: [sp_sess.user_playlist_tracks], the fetch
    capability: the page of at most [limit] records from [offset] on, with
    the total count. *)
Definition user_playlist_tracks (sp_sess : Session) (user pid : string)
    (limit offset : nat) : Page :=
  {| items := take limit (drop offset (sp_sess user pid));
     total := length (sp_sess user pid) |}.

Section Scoutlist.

(** [dateutil.parser.parse]: [None] stands for a raised [ParserError]. *)
Variable parse : string → option Z.

(** [TrackAddedAt.__init__] *)
Definition TrackAddedAt_init (item : Item) : result TrackAddedAt :=
  let t := Track_init item in
  match item_added_at item with
  | None => Raise KeyError
  | Some s =>
      match parse s with
      | None => Raise ParserError
      | Some d => Ok {| as_track := t; added_at := d |}
      end
  end.

(** ** [tracks_iterator] *)

(** The [for item in results['items']] loop of one page: build the object,
    then yield it when its [track_id] is not [None]. *)
Fixpoint yield_items {T} (ctor : Item → result T) (tid : T → option string)
    (its : list Item) : Stream T :=
  match its with
  | [] => MkStream [] None
  | item :: rest =>
      match ctor item with
      | Raise e => MkStream [] (Some e)
      | Ok track =>
          let s := yield_items ctor tid rest in
          match tid track with
          | Some _ => MkStream (track :: yielded s) (failure s)
          | None => s
          end
      end
  end.

Definition limit : nat := 100.

(** The [while True] loop, from [offset] on. *)
Equations? tracks_iterator_loop {T} (ctor : Item → result T)
    (tid : T → option string) (sp_sess : Session) (playlist : Playlist)
    (offset : nat) : Stream T
    by wf (S (length (sp_sess (owner_id playlist) (playlist_id playlist))) - offset)%nat lt :=
  tracks_iterator_loop ctor tid sp_sess playlist offset :=
    let results :=
      user_playlist_tracks sp_sess (owner_id playlist) (playlist_id playlist)
        limit offset in
    let page := yield_items ctor tid (items results) in
    match failure page with
    | Some _ => page
    | None =>
        match decide (total results < offset + limit)%nat with
        | left _ => page
        | right _ =>
            stream_app page
              (tracks_iterator_loop ctor tid sp_sess playlist (offset + limit)%nat)
        end
    end.
Proof.
  simpl in *. unfold limit in *. lia.
Qed.

Definition yielded_type (added_at : bool) : Type :=
  if added_at then TrackAddedAt else Track.

Definition tracks_iterator (sp_sess : Session) (playlist : Playlist)
    (added_at : bool) : Stream (yielded_type added_at) :=
  match added_at with
  | true =>
      tracks_iterator_loop TrackAddedAt_init (λ t, track_id (as_track t))
        sp_sess playlist 0
  | false =>
      tracks_iterator_loop (λ item, Ok (Track_init item)) track_id
        sp_sess playlist 0
  end.

(** ** The two aggregation loops *)

(** [excluded_tracks] is a Python set of track objects.  Membership and
    insertion go through [__hash__] and [__eq__], which read the key only,
    so the set is modelled by the finite set of the keys it holds. *)

(** [aggregate_excluded_tracks] (the [print] is left out). *)
Definition aggregate_excluded_tracks (sp_sess : Session)
    (exclude_playlists : list Playlist) : result (gset TrackKey) :=
  foldM
    (λ excluded_tracks playlist,
       for_each (tracks_iterator sp_sess playlist false)
         (λ excluded_tracks (track : Track),
            Ok ({[Track_key track]} ∪ excluded_tracks))
         excluded_tracks)
    ∅ exclude_playlists.

(** [sorted(l, reverse=True)]: the sort only calls [__lt__], is stable, and
    with [reverse=True] still leaves elements that compare equal in their
    original order.  There is one such arrangement of a list; it is built
    here by insertion from the right, each element going in front of the
    first one it is not less than. *)
Fixpoint insert_desc (x : TrackAddedAt) (l : list TrackAddedAt)
  : list TrackAddedAt :=
  match l with
  | [] => [x]
  | y :: l' =>
      if TrackAddedAt_lt x y then y :: insert_desc x l' else x :: y :: l'
  end.

Definition sorted_reverse (l : list TrackAddedAt) : list TrackAddedAt :=
  foldr insert_desc [] l.

(** [l.pop()] *)
Definition pop (l : list TrackAddedAt) : result (list TrackAddedAt) :=
  match l with
  | [] => Raise IndexError
  | _ => Ok (removelast l)
  end.

(** [l[-1]] *)
Definition last_item (l : list TrackAddedAt) : result TrackAddedAt :=
  match last l with
  | None => Raise IndexError
  | Some x => Ok x
  end.

(** The variables the loop of [aggregate_source_tracks] updates; the set is
    the caller's object, mutated in place. *)
Record State : Type := MkState {
  included_tracks : list TrackAddedAt;
  excluded_tracks : gset TrackKey
}.

(** The state the loop starts in: line 203 and the argument
    [excluded_tracks]. *)
Definition initial (excluded : gset TrackKey) : State :=
  {| included_tracks := []; excluded_tracks := excluded |}.

(** The acceptance part of the loop body: lines 211 to 219. *)
Definition accept_track (output_len : Z) (s : State) (track : TrackAddedAt)
  : result State :=
  if bool_decide (key track ∈ excluded_tracks s) then Ok s
  else
    let excluded := {[key track]} ∪ excluded_tracks s in
    let included := sorted_reverse (included_tracks s ++ [track]) in
    included' ← (if Z.of_nat (length included) >? output_len
                  then pop included else Ok included);
    Ok {| included_tracks := included'; excluded_tracks := excluded |}.

(** The test of lines 207 and 208; [and] evaluates its right operand only
    when the left one holds. *)
Definition short_circuit (output_len : Z) (s : State) (track : TrackAddedAt)
  : result bool :=
  if Z.of_nat (length (included_tracks s)) >=? output_len then
    m ← last_item (included_tracks s);
    Ok (added_at track <=? added_at m)
  else Ok false.

(** The body of the inner [for] loop. *)
Definition aggregate_body (output_len : Z) (s : State) (track : TrackAddedAt)
  : result State :=
  skip ← short_circuit output_len s track;
  if skip : bool then Ok s else accept_track output_len s track.

(** The two nested [for] loops over the source playlists, for a given loop
    body. *)
Definition source_loop (body : State → TrackAddedAt → result State)
    (sp_sess : Session) (source_playlists : list Playlist) (s : State)
  : result State :=
  foldM
    (λ s playlist, for_each (tracks_iterator sp_sess playlist true) body s)
    s source_playlists.

(** The state [aggregate_source_tracks] ends in. *)
Definition aggregate_source_state (sp_sess : Session)
    (source_playlists : list Playlist) (excluded : gset TrackKey)
    (output_len : Z) : result State :=
  source_loop (aggregate_body output_len) sp_sess source_playlists
    (initial excluded).

Definition track_ids (l : list TrackAddedAt) : list (option string) :=
  map (λ track, track_id (as_track track)) l.

(** [aggregate_source_tracks]: the list of track ids it returns. *)
Definition aggregate_source_tracks (sp_sess : Session)
    (source_playlists : list Playlist) (excluded : gset TrackKey)
    (output_len : Z) : result (list (option string)) :=
  (λ s, track_ids (included_tracks s)) <$>
    aggregate_source_state sp_sess source_playlists excluded output_len.

(** The aggregation with the test of lines 207 to 209 removed: every track
    goes to the identity check. *)
Definition aggregate_source_tracks_nocheck (sp_sess : Session)
    (source_playlists : list Playlist) (excluded : gset TrackKey)
    (output_len : Z) : result (list (option string)) :=
  (λ s, track_ids (included_tracks s)) <$>
    source_loop (accept_track output_len) sp_sess source_playlists
      (initial excluded).

End Scoutlist.

(** ** Auxiliary definitions used by the statements and proofs *)

(** The records a playlist holds on the remote side. *)
Definition contents (sp_sess : Session) (playlist : Playlist) : list Item :=
  sp_sess (owner_id playlist) (playlist_id playlist).

(** The generators of the source playlists, one after the other: what the
    nested loops of [aggregate_source_tracks] consume. *)
Definition source_stream (parse : string → option Z) (sp_sess : Session)
    (source_playlists : list Playlist) : Stream TrackAddedAt :=
  foldr
    (λ playlist rest,
       stream_app (tracks_iterator parse sp_sess playlist true) rest)
    (MkStream [] None) source_playlists.

(** The keys one exclude playlist contributes. *)
Definition playlist_keys (sp_sess : Session) (playlist : Playlist)
  : gset TrackKey :=
  list_to_set
    (Track_key <$>
       filter (λ t, is_Some (track_id t))
         (Track_init <$> contents sp_sess playlist)).

(** A session serving the same playlists without their null-id records. *)
Definition without_null_ids (sp_sess : Session) : Session :=
  λ user pid, filter (λ item, is_Some (item_track_id item)) (sp_sess user pid).

(** Most recent first. *)
Definition desc (a b : TrackAddedAt) : Prop := added_at b ≤ added_at a.

(** Insertion from the left: [x] goes behind every element it is not more
    recent than. *)
Fixpoint insert_last (x : TrackAddedAt) (l : list TrackAddedAt)
  : list TrackAddedAt :=
  match l with
  | [] => [x]
  | y :: l' =>
      if TrackAddedAt_lt y x then x :: y :: l' else y :: insert_last x l'
  end.

(** The list kept after an insertion: the last element goes when the list
    is longer than [output_len]. *)
Definition trim (output_len : Z) (l : list TrackAddedAt) : list TrackAddedAt :=
  if Z.of_nat (length l) >? output_len then removelast l else l.

(** The state [accept_track] returns. *)
Definition accept_state (output_len : Z) (s : State) (track : TrackAddedAt)
  : State :=
  if bool_decide (key track ∈ excluded_tracks s) then s
  else
    {| included_tracks :=
         trim output_len (sorted_reverse (included_tracks s ++ [track]));
       excluded_tracks := {[key track]} ∪ excluded_tracks s |}.

(** [track] reaches lines 214 to 219 in state [s]: neither test skips it. *)
Definition accepts (output_len : Z) (s : State) (track : TrackAddedAt)
  : Prop :=
  short_circuit output_len s track = Ok false ∧
  key track ∉ excluded_tracks s.

(** Two situations of a track [a] and a later track [b] of the same date:
    [a] is selected with no [b] in front of it, or the list is full of
    tracks at least as recent as [a] and does not hold [b]. *)
Definition tie_open (a b : TrackAddedAt) (l : list TrackAddedAt) : Prop :=
  ∃ p q, l = p ++ a :: q ∧ b ∉ p.

Definition tie_closed (output_len : Z) (a b : TrackAddedAt)
    (l : list TrackAddedAt) : Prop :=
  output_len ≤ Z.of_nat (length l) ∧
  Forall (λ y, added_at a ≤ added_at y) l ∧
  b ∉ l.

(** [t] is settled in [s]: the list is full and holds no track older than
    [t], so the early test skips [t], now and after any further step. *)
Definition settled (output_len : Z) (s : State) (t : TrackAddedAt) : Prop :=
  output_len ≤ Z.of_nat (length (included_tracks s)) ∧
  Forall (λ y, added_at t ≤ added_at y) (included_tracks s).

(** In the run over [l] from [s], no track that the early test skips while
    its key is not yet excluded is followed by a more recent track of the
    same key. *)
Definition no_newer_repeat_of_skipped (output_len : Z) (s : State)
    (l : list TrackAddedAt) : Prop :=
  ∀ l1 t l2 s1,
    l = l1 ++ t :: l2 →
    foldM (aggregate_body output_len) s l1 = Ok s1 →
    short_circuit output_len s1 t = Ok true →
    key t ∉ excluded_tracks s1 →
    ∀ t', t' ∈ l2 → key t' = key t → added_at t' ≤ added_at t.

(** What the loop maintains, for the set [seed] the caller passed in. *)
Record Inv (output_len : Z) (seed : gset TrackKey) (s : State) : Prop := {
  inv_sorted : StronglySorted desc (included_tracks s);
  inv_length : Z.of_nat (length (included_tracks s)) ≤ Z.max output_len 0;
  inv_nodup : NoDup (key <$> included_tracks s);
  inv_excl : ∀ x, x ∈ included_tracks s → key x ∈ excluded_tracks s;
  inv_seed : seed ⊆ excluded_tracks s;
  inv_fresh : ∀ x, x ∈ included_tracks s → key x ∉ seed
}.

(** ** [add_playlist_tracks] *)

(** One call of [sp_sess.user_playlist_add_tracks]: its four arguments. *)
Record AddTracksCall (A : Type) : Type := MkAddTracksCall {
  call_user : string;
  call_playlist_id : string;
  call_tracks : list A;
  call_position : nat
}.
Arguments MkAddTracksCall {A} _ _ _ _.
Arguments call_user {A} _.
Arguments call_playlist_id {A} _.
Arguments call_tracks {A} _.
Arguments call_position {A} _.

(** The [while offset < len(tracks)] loop, from [offset] on: the calls it
    makes, in order.  [tracks[offset:offset+100]] is
    [take 100 (drop offset tracks)]. *)
Equations? add_playlist_tracks_loop {A} (username playlist_id : string)
    (tracks : list A) (offset : nat) : list (AddTracksCall A)
    by wf (length tracks - offset)%nat lt :=
  add_playlist_tracks_loop username playlist_id tracks offset
    with decide (offset < length tracks)%nat := {
    | left _ =>
        MkAddTracksCall username playlist_id
          (take 100 (drop offset tracks)) offset
        :: add_playlist_tracks_loop username playlist_id tracks
             (offset + 100)%nat;
    | right _ => [] }.
Proof. lia. Qed.

(** [add_playlist_tracks] (the [print] is left out). *)
Definition add_playlist_tracks {A} (username playlist_id : string)
    (tracks : list A) : list (AddTracksCall A) :=
  add_playlist_tracks_loop username playlist_id tracks 0.

(** Modelled from the spec: [sp_sess.user_playlist_add_tracks], the append
    capability: the batch goes into the playlist at the given position. *)
Definition user_playlist_add_tracks {A} (playlist : list A)
    (c : AddTracksCall A) : list A :=
  take (call_position c) playlist ++ call_tracks c
    ++ drop (call_position c) playlist.

(** ** [inspect_playlists] *)

(** One element of [results['items']] of the playlist listing: the name,
    the owner's id and the playlist's id. *)
Record PlaylistItem : Type := MkPlaylistItem {
  listed_name : string;
  listed_owner_id : string;
  listed_id : string
}.

(** What [inspect_playlists] prints: a line per playlist, carrying the three
    values the format string takes, and the closing line with the total. *)
Inductive Line : Type :=
| PlaylistLine (item : PlaylistItem)
| TotalLine (total : nat).

(** Modelled from the spec: [sp_sess.current_user_playlists], serving the
    user's playlists by pages. *)
Definition current_user_playlists (playlists : list PlaylistItem)
    (limit offset : nat) : list PlaylistItem * nat :=
  (take limit (drop offset playlists), length playlists).

(** The [while True] loop of [inspect_playlists], from [offset] on. *)
Equations? inspect_playlists_loop (playlists : list PlaylistItem)
    (offset : nat) : list Line
    by wf (S (length playlists) - offset)%nat lt :=
  inspect_playlists_loop playlists offset :=
    let results := current_user_playlists playlists 50 offset in
    let printed := PlaylistLine <$> results.1 in
    match decide (results.2 < offset + 50)%nat with
    | left _ => printed ++ [TotalLine results.2]
    | right _ => printed ++ inspect_playlists_loop playlists (offset + 50)%nat
    end.
Proof. simpl in *. lia. Qed.

Definition inspect_playlists (playlists : list PlaylistItem) : list Line :=
  inspect_playlists_loop playlists 0.

(** ** The requests of [tracks_iterator] *)

(** The loop of [tracks_iterator_loop] once more, returning with what it
    yields the offsets it passes to [user_playlist_tracks] when it is
    consumed to its end. *)
Equations? tracks_iterator_trace {T} (ctor : Item → result T)
    (tid : T → option string) (sp_sess : Session) (playlist : Playlist)
    (offset : nat) : Stream T * list nat
    by wf (S (length (sp_sess (owner_id playlist) (playlist_id playlist))) - offset)%nat lt :=
  tracks_iterator_trace ctor tid sp_sess playlist offset :=
    let results :=
      user_playlist_tracks sp_sess (owner_id playlist) (playlist_id playlist)
        limit offset in
    let page := yield_items ctor tid (items results) in
    match failure page with
    | Some _ => (page, [offset])
    | None =>
        match decide (total results < offset + limit)%nat with
        | left _ => (page, [offset])
        | right _ =>
            let rest :=
              tracks_iterator_trace ctor tid sp_sess playlist
                (offset + limit)%nat in
            (stream_app page rest.1, offset :: rest.2)
        end
    end.
Proof. simpl in *. unfold limit in *. lia. Qed.

(** [Track.__hash__], for a given [hash] of the key tuple. *)
Definition Track_hash (hash : TrackKey → Z) (t : Track) : Z :=
  hash (Track_key t).

(** ** Example data

    A parser that agrees with [dateutil] on the four timestamps used below
    (seconds since the epoch, UTC) and rejects everything else, and a
    session serving a few small playlists. *)

Section Examples.
Local Open Scope string_scope.

Definition example_parse (s : string) : option Z :=
  if decide (s = "2020-01-01T00:00:00Z") then Some 1577836800
  else if decide (s = "2020-01-02T00:00:00Z") then Some 1577923200
  else if decide (s = "2020-01-03T00:00:00Z") then Some 1578009600
  else if decide (s = "2020-01-05T00:00:00Z") then Some 1578182400
  else None.

Definition example_record (id name artist day : string) : Item :=
  {| item_track_id := Some id; item_track_name := name;
     item_artists := [artist]; item_added_at := Some day |}.

(** Scenario A of the specification. *)
Definition scenario_a : list Item :=
  [ example_record "id1" "T1" "a1" "2020-01-01T00:00:00Z";
    example_record "id2" "T2" "a2" "2020-01-03T00:00:00Z";
    example_record "id3" "T3" "a3" "2020-01-02T00:00:00Z" ].

(** A track, an older one, and the older one again under another id and
    with a newer date. *)
Definition repeated_newer : list Item :=
  [ example_record "id1" "A" "a1" "2020-01-03T00:00:00Z";
    example_record "id2" "B" "a2" "2020-01-01T00:00:00Z";
    example_record "id3" "B" "a2" "2020-01-05T00:00:00Z" ].

Definition two_tracks : list Item :=
  [ example_record "id1" "A" "a1" "2020-01-05T00:00:00Z";
    example_record "id2" "B" "a2" "2020-01-03T00:00:00Z" ].

(** Two records of one identity, then a record of another identity that
    ties with the second. *)
Definition tie_after_repeat : list Item :=
  [ example_record "id1" "X" "a1" "2020-01-01T00:00:00Z";
    example_record "id2" "X" "a1" "2020-01-05T00:00:00Z";
    example_record "id3" "Y" "a2" "2020-01-05T00:00:00Z" ].

Definition tie : list Item :=
  [ example_record "id1" "A" "a1" "2020-01-03T00:00:00Z";
    example_record "id2" "B" "a2" "2020-01-03T00:00:00Z";
    example_record "id3" "C" "a3" "2020-01-05T00:00:00Z" ].

(** A local file: no track id.  Once with a date that parses, once
    without. *)
Definition local_file (day : string) : Item :=
  {| item_track_id := None; item_track_name := "L";
     item_artists := ["a9"]; item_added_at := Some day |}.

Definition with_local_file : list Item :=
  [ example_record "id1" "T1" "a1" "2020-01-01T00:00:00Z";
    local_file "2020-01-05T00:00:00Z" ].

Definition with_bad_local_file : list Item :=
  [ local_file "unknown" ].

Definition with_bad_date : list Item :=
  [ example_record "id1" "T1" "a1" "2020-01-01T00:00:00Z";
    example_record "id2" "T2" "a2" "unknown" ].

Definition example_session : Session := λ user pid,
  if decide (pid = "scenario_a") then scenario_a
  else if decide (pid = "repeated_newer") then repeated_newer
  else if decide (pid = "two_tracks") then two_tracks
  else if decide (pid = "tie_after_repeat") then tie_after_repeat
  else if decide (pid = "tie") then tie
  else if decide (pid = "with_local_file") then with_local_file
  else if decide (pid = "with_bad_local_file") then with_bad_local_file
  else if decide (pid = "with_bad_date") then with_bad_date
  else [].

Definition example_playlist (pid : string) : Playlist :=
  {| pl_track_name := pid; owner_id := "me"; playlist_id := pid |}.

Definition example_track (id name artist : string) (at_ : Z) : TrackAddedAt :=
  {| as_track :=
       {| track_id := Some id; track_name := name;
          artist_ids := list_to_set [artist] |};
     added_at := at_ |}.

End Examples.

(** A decidable proposition on closed data, settled by evaluation. *)
Ltac by_computation := apply (bool_decide_unpack _); vm_compute; exact I.

(** ** Properties *)

(** [__eq__] compares what [__key] returns. *)
Lemma Track_eq_key (a b : Track) :
  Track_eq a b = true ↔ Track_key a = Track_key b.
Proof.
  unfold Track_eq, Track_key. rewrite andb_true_iff, !bool_decide_eq_true.
  split; [intros [-> ->]; done | intros [= -> ->]; done].
Qed.

Section StreamFacts.
Context {A S : Type}.
Implicit Types (body : S → A → result S) (g : Stream A).

Lemma bind_Ok {X Y} (r : result X) (k : X → result Y) (y : Y) :
  r ≫= k = Ok y ↔ ∃ x, r = Ok x ∧ k x = Ok y.
Proof.
  destruct r as [x|e]; simpl.
  - split; [eauto | intros (x' & [= <-] & ?); done].
  - split; [done | intros (x' & ? & ?); done].
Qed.

Lemma bind_ext {X Y} (r : result X) (k1 k2 : X → result Y) :
  (∀ x, k1 x = k2 x) → r ≫= k1 = r ≫= k2.
Proof. intros Hk. destruct r; simpl; [apply Hk | done]. Qed.

Lemma foldM_app body s l1 l2 :
  foldM body s (l1 ++ l2) = foldM body s l1 ≫= λ s', foldM body s' l2.
Proof.
  revert s. induction l1 as [|x l1 IH]; intros s; simpl; [done|].
  destruct (body s x) as [s'|e]; simpl; [apply IH | done].
Qed.

Lemma foldM_total body (f : S → A → S) s l :
  (∀ s x, body s x = Ok (f s x)) → foldM body s l = Ok (foldl f s l).
Proof.
  intros Hb. revert s. induction l as [|x l IH]; intros s; simpl; [done|].
  rewrite Hb. simpl. apply IH.
Qed.

Lemma for_each_app g1 g2 body s :
  for_each (stream_app g1 g2) body s
  = for_each g1 body s ≫= for_each g2 body.
Proof.
  unfold for_each, stream_app. destruct (failure g1) as [e|] eqn:Hf.
  - rewrite Hf. destruct (foldM body s (yielded g1)); done.
  - simpl. rewrite foldM_app.
    destruct (foldM body s (yielded g1)); done.
Qed.

Lemma foldM_invariant (P : S → Prop) body l s s' :
  (∀ s x s', P s → body s x = Ok s' → P s') →
  P s → foldM body s l = Ok s' → P s'.
Proof.
  intros Hstep. revert s. induction l as [|x l IH]; intros s Hs; simpl.
  - by intros [= <-].
  - intros (s1 & Hb & Hl)%bind_Ok. eauto.
Qed.

Lemma for_each_Ok g body s s' :
  for_each g body s = Ok s' ↔
  foldM body s (yielded g) = Ok s' ∧ failure g = None.
Proof.
  unfold for_each. rewrite bind_Ok. split.
  - intros (s1 & Hf & Hg). destruct (failure g); naive_solver.
  - intros [Hf ->]. eauto.
Qed.

Lemma stream_app_failure_None g1 g2 :
  failure (stream_app g1 g2) = None ↔ failure g1 = None ∧ failure g2 = None.
Proof. destruct g1 as [ys [e|]]; unfold stream_app; simpl; naive_solver. Qed.

Lemma stream_app_failure_Some g1 g2 e :
  failure (stream_app g1 g2) = Some e →
  failure g1 = Some e ∨ failure g2 = Some e.
Proof. destruct g1 as [ys [e'|]]; unfold stream_app; simpl; naive_solver. Qed.

Lemma stream_app_yielded g1 g2 x :
  x ∈ yielded (stream_app g1 g2) → x ∈ yielded g1 ∨ x ∈ yielded g2.
Proof.
  destruct g1 as [ys [e'|]]; unfold stream_app; simpl; [by left|].
  by intros ?%elem_of_app.
Qed.

End StreamFacts.

Section IteratorFacts.
Variable parse : string → option Z.

Section Generic.
Context {T : Type} (ctor : Item → result T) (tid : T → option string).

Lemma yield_items_app l1 l2 :
  yield_items ctor tid (l1 ++ l2)
  = stream_app (yield_items ctor tid l1) (yield_items ctor tid l2).
Proof.
  induction l1 as [|item l1 IH]; simpl.
  - by destruct (yield_items ctor tid l2).
  - destruct (ctor item) as [track|e]; [|done].
    rewrite IH. unfold stream_app.
    destruct (yield_items ctor tid l1) as [ys [e|]]; by destruct (tid track).
Qed.

(** Paging is invisible: the loop started at [offset] yields what a single
    pass over the records from [offset] on yields. *)
Lemma tracks_iterator_loop_drop sp_sess playlist offset :
  tracks_iterator_loop ctor tid sp_sess playlist offset
  = yield_items ctor tid (drop offset (contents sp_sess playlist)).
Proof.
  unfold contents.
  funelim (tracks_iterator_loop ctor tid sp_sess playlist offset).
  simpl in *.
  set (c := sp_sess (owner_id playlist) (playlist_id playlist)) in *.
  rewrite <- (take_drop limit (drop offset c)) at 2.
  rewrite yield_items_app.
  destruct (failure (yield_items ctor tid (take limit (drop offset c))))
    as [e|] eqn:Hf.
  { unfold stream_app. by rewrite Hf. }
  destruct (decide (length c < offset + limit)%nat) as [Hlt|Hge].
  - rewrite (drop_ge (drop offset c) limit); [|rewrite length_drop; lia].
    unfold stream_app. rewrite Hf. simpl. rewrite app_nil_r.
    by destruct (yield_items ctor tid (take limit (drop offset c)));
      simpl in *; subst.
  - rewrite H by done. by rewrite drop_drop.
Qed.

Lemma yield_items_tid its :
  Forall (λ t, is_Some (tid t)) (yielded (yield_items ctor tid its)).
Proof.
  induction its as [|item its IH]; simpl; [constructor|].
  destruct (ctor item) as [track|e]; [|constructor].
  destruct (tid track) eqn:Ht; [|done]. simpl. constructor; [by rewrite Ht|done].
Qed.

Lemma yield_items_tid_loop sp_sess playlist offset :
  Forall (λ t, is_Some (tid t))
    (yielded (tracks_iterator_loop ctor tid sp_sess playlist offset)).
Proof. rewrite tracks_iterator_loop_drop. apply yield_items_tid. Qed.

End Generic.

Lemma tracks_iterator_true sp_sess playlist :
  tracks_iterator parse sp_sess playlist true
  = yield_items (TrackAddedAt_init parse) (λ t, track_id (as_track t))
      (contents sp_sess playlist).
Proof. unfold tracks_iterator. by rewrite tracks_iterator_loop_drop. Qed.

Lemma tracks_iterator_false sp_sess playlist :
  tracks_iterator parse sp_sess playlist false
  = MkStream
      (filter (λ t, is_Some (track_id t))
         (Track_init <$> contents sp_sess playlist)) None.
Proof.
  unfold tracks_iterator. rewrite tracks_iterator_loop_drop. rewrite drop_0.
  induction (contents sp_sess playlist) as [|item its IH]; [done|].
  rewrite fmap_cons, filter_cons. cbn [yield_items]. rewrite IH.
  destruct (track_id (Track_init item)) eqn:Hid.
  - rewrite decide_True; [done | by eexists].
  - rewrite decide_False; [done | by intros []].
Qed.

(** X3. Paging does not show: [tracks_iterator] yields the records of the
    playlist in order, those without track id left out, up to the first one
    whose construction raises; without [added_at] nothing raises. *)
Lemma tracks_iterator_paging sp_sess playlist :
  tracks_iterator parse sp_sess playlist true
  = yield_items (TrackAddedAt_init parse) (λ t, track_id (as_track t))
      (contents sp_sess playlist) ∧
  tracks_iterator parse sp_sess playlist false
  = MkStream
      (filter (λ t, is_Some (track_id t))
         (Track_init <$> contents sp_sess playlist)) None.
Proof. split; [apply tracks_iterator_true | apply tracks_iterator_false]. Qed.

Lemma source_loop_stream body sp_sess source_playlists s :
  source_loop parse body sp_sess source_playlists s
  = for_each (source_stream parse sp_sess source_playlists) body s.
Proof.
  unfold source_loop. revert s.
  induction source_playlists as [|pl pls IH]; intros s; [done|].
  unfold source_stream. cbn [foldM foldr].
  fold (source_stream parse sp_sess pls). rewrite for_each_app.
  apply bind_ext, IH.
Qed.

End IteratorFacts.

Section SortFacts.
Implicit Types (x t : TrackAddedAt) (l : list TrackAddedAt).

Lemma insert_desc_insert_last x t l :
  insert_desc x (insert_last t l) = insert_last t (insert_desc x l).
Proof.
  unfold TrackAddedAt_lt.
  induction l as [|y l IH]; simpl; unfold TrackAddedAt_lt.
  - done.
  - destruct (added_at y <? added_at t) eqn:Hyt,
      (added_at x <? added_at y) eqn:Hxy; simpl; unfold TrackAddedAt_lt;
      rewrite ?Hyt, ?Hxy; try rewrite IH; try done.
    + assert ((added_at x <? added_at t) = true) as -> by lia. done.
    + assert ((added_at x <? added_at t) = false) as -> by lia. done.
Qed.

Lemma sorted_reverse_snoc l t :
  sorted_reverse (l ++ [t]) = insert_last t (sorted_reverse l).
Proof.
  induction l as [|x l IH]; simpl; [done|].
  rewrite IH. apply insert_desc_insert_last.
Qed.

Lemma sorted_reverse_id l : StronglySorted desc l → sorted_reverse l = l.
Proof.
  induction 1 as [|x l Hl IH Hx]; simpl; [done|].
  rewrite IH. destruct Hx as [|y l Hy _]; simpl; [done|].
  unfold TrackAddedAt_lt, desc in *.
  by assert ((added_at x <? added_at y) = false) as -> by lia.
Qed.

Lemma insert_last_split t l :
  StronglySorted desc l →
  ∃ hi lo, l = hi ++ lo ∧ insert_last t l = hi ++ t :: lo ∧
    Forall (λ y, added_at t ≤ added_at y) hi ∧
    Forall (λ y, added_at y < added_at t) lo.
Proof.
  induction 1 as [|y l Hl IH Hy]; simpl.
  - by exists [], [].
  - unfold TrackAddedAt_lt. destruct (added_at y <? added_at t) eqn:Hyt.
    + exists [], (y :: l). repeat split; [constructor|].
      constructor; [lia|]. eapply Forall_impl; [exact Hy|].
      unfold desc. simpl. intros; lia.
    + destruct IH as (hi & lo & -> & -> & Hhi & Hlo).
      exists (y :: hi), lo. repeat split; [|done].
      constructor; [lia|done].
Qed.

Lemma insert_last_snoc t l :
  Forall (λ y, added_at t ≤ added_at y) l → insert_last t l = l ++ [t].
Proof.
  induction 1 as [|y l Hy _ IH]; simpl; [done|].
  unfold TrackAddedAt_lt.
  assert ((added_at y <? added_at t) = false) as -> by lia. by rewrite IH.
Qed.

Lemma insert_last_perm t l : insert_last t l ≡ₚ t :: l.
Proof.
  induction l as [|y l IH]; simpl; [done|].
  destruct (TrackAddedAt_lt y t); [done|]. rewrite IH. apply Permutation_swap.
Qed.

Lemma insert_last_sorted t l :
  StronglySorted desc l → StronglySorted desc (insert_last t l).
Proof.
  intros Hl. destruct (insert_last_split t l Hl) as (hi & lo & -> & -> & Hhi & Hlo).
  apply StronglySorted_app in Hl as (Hhl & Hh & Hlo').
  apply StronglySorted_app_2; [|done|].
  - intros x1 x2 Hx1 [->|Hx2]%elem_of_cons; unfold desc.
    + by apply (proj1 (Forall_forall _ _) Hhi).
    + by apply Hhl.
  - apply StronglySorted_cons. split; [|done].
    eapply Forall_impl; [exact Hlo|]. unfold desc. simpl. intros; lia.
Qed.

Lemma sorted_reverse_perm l : sorted_reverse l ≡ₚ l.
Proof.
  induction l as [|x l IH] using rev_ind; [done|].
  rewrite sorted_reverse_snoc, insert_last_perm, IH.
  by rewrite Permutation_cons_append.
Qed.

Lemma removelast_sublist l : removelast l `sublist_of` l.
Proof.
  destruct (last l) as [x|] eqn:Hl.
  - apply last_Some in Hl as [l' ->]. rewrite removelast_last.
    by apply sublist_inserts_r.
  - apply last_None in Hl as ->. done.
Qed.

Lemma trim_sublist K l : trim K l `sublist_of` l.
Proof. unfold trim. destruct (_ >? _); [apply removelast_sublist | done]. Qed.

Lemma sublist_StronglySorted l1 l2 :
  l1 `sublist_of` l2 → StronglySorted desc l2 → StronglySorted desc l1.
Proof.
  induction 1 as [|x l1 l2 Hs IH|x l1 l2 Hs IH]; [done|..];
    rewrite !StronglySorted_cons; intros [Hx Hl2]; [|by auto].
  split; [|by auto].
  rewrite Forall_forall in Hx |- *. intros y Hy. apply Hx.
  by eapply elem_of_sublist.
Qed.

Lemma trim_length K l :
  (length l ≤ S (Z.to_nat (Z.max K 0)))%nat →
  Z.of_nat (length (trim K l)) ≤ Z.max K 0.
Proof.
  unfold trim. intros Hl. destruct (_ >? _) eqn:Hgt; [|lia].
  destruct (last l) as [x|] eqn:Hx.
  - apply last_Some in Hx as [l' ->]. rewrite removelast_last.
    rewrite length_app in Hl. simpl in Hl. lia.
  - apply last_None in Hx as ->. simpl. lia.
Qed.

End SortFacts.

Section BodyFacts.
Implicit Types (s : State) (t : TrackAddedAt) (K : Z) (seed : gset TrackKey).

Lemma sorted_reverse_snoc_sorted l t :
  StronglySorted desc l → sorted_reverse (l ++ [t]) = insert_last t l.
Proof. intros Hl. by rewrite sorted_reverse_snoc, sorted_reverse_id. Qed.

Lemma insert_last_not_nil t l : insert_last t l ≠ [].
Proof. destruct l as [|y l]; simpl; [done|]. by destruct (TrackAddedAt_lt y t). Qed.

(** [accept_track] never raises: [pop] is only called on a list that has
    just received an element. *)
Lemma accept_track_eq K s t : accept_track K s t = Ok (accept_state K s t).
Proof.
  unfold accept_track, accept_state, trim.
  destruct (bool_decide _); [done|].
  destruct (_ >? _); [|done].
  rewrite sorted_reverse_snoc.
  pose proof (insert_last_not_nil t (sorted_reverse (included_tracks s))).
  by destruct (insert_last t (sorted_reverse (included_tracks s))).
Qed.

(** The three ways through the loop body. *)
Lemma aggregate_body_cases K s t :
  (included_tracks s = [] ∧ K ≤ 0 ∧
     aggregate_body K s t = Raise IndexError) ∨
  (∃ l m, included_tracks s = l ++ [m] ∧
     K ≤ Z.of_nat (length (included_tracks s)) ∧
     added_at t ≤ added_at m ∧ aggregate_body K s t = Ok s) ∨
  ((Z.of_nat (length (included_tracks s)) < K ∨
      ∃ l m, included_tracks s = l ++ [m] ∧ added_at m < added_at t) ∧
     aggregate_body K s t = Ok (accept_state K s t)).
Proof.
  unfold aggregate_body, short_circuit, last_item.
  destruct (_ >=? _) eqn:Hge; simpl.
  - destruct (last (included_tracks s)) as [m|] eqn:Hlast; simpl.
    + apply last_Some in Hlast as [l Hl].
      destruct (added_at t <=? added_at m) eqn:Hle.
      * right; left. exists l, m. repeat split; [done|lia|lia].
      * right; right. rewrite accept_track_eq. split; [|done].
        right. exists l, m. split; [done|lia].
    + apply last_None in Hlast. left. rewrite Hlast in Hge.
      apply Z.geb_le in Hge. simpl in Hge. repeat split; [done|lia].
  - right; right. rewrite accept_track_eq. split; [left; lia | done].
Qed.

Lemma aggregate_body_Ok K s t s' :
  aggregate_body K s t = Ok s' → s' = s ∨ s' = accept_state K s t.
Proof.
  destruct (aggregate_body_cases K s t)
    as [(_ & _ & ->)|[(l & m & _ & _ & _ & ->)|(_ & ->)]]; naive_solver.
Qed.

Lemma Inv_init K seed : Inv K seed (initial seed).
Proof.
  split; simpl; [constructor | lia | constructor | | done | ];
    intros x Hx; by apply elem_of_nil in Hx.
Qed.

Lemma accept_state_Inv K seed s t :
  Inv K seed s → Inv K seed (accept_state K s t).
Proof.
  intros [Hsorted Hlen Hnodup Hexcl Hseed Hfresh]. unfold accept_state.
  case_bool_decide as Hin; [done|].
  rewrite sorted_reverse_snoc_sorted by done.
  pose proof (trim_sublist K (insert_last t (included_tracks s))) as Hsub.
  assert (∀ x, x ∈ trim K (insert_last t (included_tracks s)) →
               x = t ∨ x ∈ included_tracks s) as Hmem.
  { intros x Hx. eapply elem_of_sublist in Hx; [|exact Hsub].
    rewrite insert_last_perm in Hx. by apply elem_of_cons in Hx. }
  split; simpl.
  - eapply sublist_StronglySorted; [exact Hsub|]. by apply insert_last_sorted.
  - apply trim_length. rewrite insert_last_perm. simpl. lia.
  - eapply (sublist_NoDup _ (key <$> insert_last t (included_tracks s)));
      [|apply fmap_sublist; exact Hsub].
    rewrite insert_last_perm. rewrite fmap_cons. apply NoDup_cons. split; [|done].
    intros (x & Hkx & Hx)%list_elem_of_fmap. apply Hin. rewrite Hkx. auto.
  - intros x [->|Hx]%Hmem; set_solver.
  - set_solver.
  - intros x [->|Hx]%Hmem; [set_solver | auto].
Qed.

Lemma aggregate_body_Inv K seed s t s' :
  Inv K seed s → aggregate_body K s t = Ok s' → Inv K seed s'.
Proof.
  intros HI [->| ->]%aggregate_body_Ok; [done|]. by apply accept_state_Inv.
Qed.

End BodyFacts.

Section RunFacts.
Variable parse : string → option Z.
Implicit Types (s : State) (t : TrackAddedAt) (K : Z) (seed : gset TrackKey).

Lemma aggregate_source_state_Ok sp_sess pls seed K s :
  aggregate_source_state parse sp_sess pls seed K = Ok s ↔
  foldM (aggregate_body K) (initial seed)
    (yielded (source_stream parse sp_sess pls)) = Ok s ∧
  failure (source_stream parse sp_sess pls) = None.
Proof.
  unfold aggregate_source_state. rewrite source_loop_stream. apply for_each_Ok.
Qed.

Lemma aggregate_source_tracks_Ok sp_sess pls seed K ids :
  aggregate_source_tracks parse sp_sess pls seed K = Ok ids ↔
  ∃ s, aggregate_source_state parse sp_sess pls seed K = Ok s ∧
       ids = track_ids (included_tracks s).
Proof.
  unfold aggregate_source_tracks.
  destruct (aggregate_source_state parse sp_sess pls seed K) as [s|e]; simpl.
  - split; [intros [= <-]; eauto | intros (s' & [= <-] & ->); done].
  - split; [done | intros (s' & ? & _); done].
Qed.

Lemma foldM_body_Inv K seed s l s' :
  Inv K seed s → foldM (aggregate_body K) s l = Ok s' → Inv K seed s'.
Proof.
  intros HI Hrun.
  eapply (foldM_invariant (Inv K seed)); [|exact HI|exact Hrun].
  intros s0 x s0' H0 Hb. by eapply aggregate_body_Inv.
Qed.

Lemma aggregate_source_state_Inv sp_sess pls seed K s :
  aggregate_source_state parse sp_sess pls seed K = Ok s → Inv K seed s.
Proof.
  intros [Hrun _]%aggregate_source_state_Ok.
  eapply foldM_body_Inv; [apply Inv_init | exact Hrun].
Qed.

(** X1. When [aggregate_source_tracks] returns, the list is not longer
    than a capacity that is not negative. *)
Lemma aggregate_source_tracks_length sp_sess pls seed K ids :
  0 ≤ K →
  aggregate_source_tracks parse sp_sess pls seed K = Ok ids →
  Z.of_nat (length ids) ≤ K.
Proof.
  intros HK (s & Hs & ->)%aggregate_source_tracks_Ok.
  apply aggregate_source_state_Inv in Hs as [_ Hlen _ _ _ _].
  unfold track_ids. rewrite length_map. lia.
Qed.

(** With a capacity of zero or less the first track a source playlist
    yields makes [included_tracks[-1]] raise. *)
Lemma foldM_body_nonpos K s t l :
  K ≤ 0 → included_tracks s = [] →
  foldM (aggregate_body K) s (t :: l) = Raise IndexError.
Proof.
  intros HK Hnil. simpl.
  destruct (aggregate_body_cases K s t)
    as [(_ & _ & ->)|[(l0 & m & Hl & _)|([Hlt|(l0 & m & Hl & _)] & _)]];
    [done|..]; rewrite Hnil in *; simpl in *;
    try lia; by destruct l0.
Qed.

(** X2. With a capacity of zero or less, [aggregate_source_tracks] raises
    [IndexError] as soon as a source playlist yields a track. *)
Lemma aggregate_source_tracks_nonpos sp_sess pls seed K :
  K ≤ 0 → yielded (source_stream parse sp_sess pls) ≠ [] →
  aggregate_source_tracks parse sp_sess pls seed K = Raise IndexError.
Proof.
  intros HK Hne. unfold aggregate_source_tracks, aggregate_source_state.
  rewrite source_loop_stream. unfold for_each.
  destruct (yielded (source_stream parse sp_sess pls)) as [|t l]; [done|].
  by rewrite foldM_body_nonpos.
Qed.

(** With a positive capacity the loop body never raises. *)
Lemma foldM_body_pos K s l :
  0 < K → ∃ s', foldM (aggregate_body K) s l = Ok s'.
Proof.
  intros HK. revert s. induction l as [|t l IH]; intros s; simpl; [eauto|].
  destruct (aggregate_body_cases K s t)
    as [(_ & ? & _)|[(_ & _ & _ & _ & _ & ->)|(_ & ->)]]; [lia|..]; apply IH.
Qed.

End RunFacts.

(** ** The returned list *)

Section Output.
Variable parse : string → option Z.

Lemma StronglySorted_lookup {A} (R : relation A) (l : list A) i j x y :
  StronglySorted R l → (i < j)%nat →
  l !! i = Some x → l !! j = Some y → R x y.
Proof.
  intros Hl. revert i j. induction Hl as [|z l Hl IH Hz]; intros i j Hij Hi Hj.
  - done.
  - destruct j as [|j]; [lia|]. destruct i as [|i]; simpl in *.
    + simplify_eq. rewrite Forall_forall in Hz. apply Hz.
      by eapply list_elem_of_lookup_2.
    + apply (IH i j); [lia|done..].
Qed.

(** C3. The tracks whose ids [aggregate_source_tracks] returns carry
    pairwise different keys (name, set of artist ids), and none of these
    keys is in the exclusion set the caller passed in. *)
Theorem aggregate_source_tracks_unique sp_sess source_playlists excluded
    output_len ids :
  aggregate_source_tracks parse sp_sess source_playlists excluded output_len
    = Ok ids →
  ∃ s, aggregate_source_state parse sp_sess source_playlists excluded
         output_len = Ok s ∧
       ids = track_ids (included_tracks s) ∧
       NoDup (key <$> included_tracks s) ∧
       ∀ x, x ∈ included_tracks s → key x ∉ excluded.
Proof.
  intros (s & Hs & ->)%aggregate_source_tracks_Ok. exists s.
  pose proof (aggregate_source_state_Inv _ _ _ _ _ _ Hs) as [].
  done.
Qed.

(** C4. The tracks whose ids [aggregate_source_tracks] returns are in
    non-increasing order of [added_at]: of two positions, the earlier one
    holds a track added at the same time or later. *)
Theorem aggregate_source_tracks_descending sp_sess source_playlists excluded
    output_len ids :
  aggregate_source_tracks parse sp_sess source_playlists excluded output_len
    = Ok ids →
  ∃ s, aggregate_source_state parse sp_sess source_playlists excluded
         output_len = Ok s ∧
       ids = track_ids (included_tracks s) ∧
       ∀ i j x y, (i < j)%nat →
         included_tracks s !! i = Some x → included_tracks s !! j = Some y →
         added_at y ≤ added_at x.
Proof.
  intros (s & Hs & ->)%aggregate_source_tracks_Ok. exists s.
  pose proof (aggregate_source_state_Inv _ _ _ _ _ _ Hs) as [Hsorted _ _ _ _ _].
  repeat split; [done|]. intros i j x y Hij Hi Hj.
  exact (StronglySorted_lookup desc _ i j x y Hsorted Hij Hi Hj).
Qed.

End Output.

(** C1. With [output_len = 0] and a source playlist that yields a track,
    [aggregate_source_tracks] does not return the empty list: the test of
    line 207 holds for the empty list and line 208 raises [IndexError]. *)
Theorem aggregate_source_tracks_capacity_zero :
  aggregate_source_tracks example_parse example_session
    [example_playlist "scenario_a"%string] ∅ 0 = Raise IndexError.
Proof. by vm_compute. Qed.

(** ** Generators: failures and null ids *)

Section GeneratorFacts.
Variable parse : string → option Z.

Lemma yield_items_failure_None {T} (ctor : Item → result T) tid its :
  failure (yield_items ctor tid its) = None →
  Forall (λ item, ∃ t, ctor item = Ok t) its.
Proof.
  induction its as [|item its IH]; simpl; [constructor|].
  destruct (ctor item) as [t|e] eqn:Hc; [|done].
  intros Hf. constructor; [by eauto|]. apply IH. by destruct (tid t).
Qed.

Lemma yield_items_failure_Some {T} (ctor : Item → result T) tid its e :
  failure (yield_items ctor tid its) = Some e →
  ∃ item, item ∈ its ∧ ctor item = Raise e.
Proof.
  induction its as [|item its IH]; simpl; [done|].
  destruct (ctor item) as [t|e'] eqn:Hc.
  - intros Hf. destruct IH as (item' & Hin & Hr); [by destruct (tid t)|].
    exists item'. split; [by right | done].
  - intros [= ->]. exists item. split; [by left | done].
Qed.

Lemma yield_items_filter {T} (ctor : Item → result T) tid its :
  (∀ item t, ctor item = Ok t → tid t = item_track_id item) →
  (∀ item, item ∈ its → item_track_id item = None → ∃ t, ctor item = Ok t) →
  yield_items ctor tid (filter (λ item, is_Some (item_track_id item)) its)
  = yield_items ctor tid its.
Proof.
  intros Htid. induction its as [|item its IH]; intros Hnull; [done|].
  rewrite filter_cons. destruct (item_track_id item) as [i|] eqn:Hid.
  - rewrite decide_True by (by eexists). simpl. rewrite IH; [done|].
    intros item' Hin. apply Hnull. by right.
  - rewrite decide_False by (by intros []). simpl.
    destruct (Hnull item) as [t Ht]; [by left | done |]. rewrite Ht.
    rewrite (Htid _ _ Ht), Hid. apply IH.
    intros item' Hin. apply Hnull. by right.
Qed.

Lemma contents_without_null_ids sp_sess pl :
  contents (without_null_ids sp_sess) pl
  = filter (λ item, is_Some (item_track_id item)) (contents sp_sess pl).
Proof. done. Qed.

Lemma TrackAddedAt_init_track_id item t :
  TrackAddedAt_init parse item = Ok t →
  track_id (as_track t) = item_track_id item.
Proof.
  unfold TrackAddedAt_init. destruct (item_added_at item) as [str|]; [|done].
  destruct (parse str); [|done]. by intros [= <-].
Qed.

Lemma source_stream_cons sp_sess pl pls :
  source_stream parse sp_sess (pl :: pls)
  = stream_app (tracks_iterator parse sp_sess pl true)
      (source_stream parse sp_sess pls).
Proof. done. Qed.

Lemma source_stream_failure_None sp_sess pls pl :
  failure (source_stream parse sp_sess pls) = None → pl ∈ pls →
  failure (tracks_iterator parse sp_sess pl true) = None.
Proof.
  induction pls as [|pl' pls IH]; [by intros _ ?%elem_of_nil|].
  rewrite source_stream_cons.
  intros [Hf Hs]%stream_app_failure_None [->|Hin]%elem_of_cons;
    [done | by apply IH].
Qed.

Lemma source_stream_failure_Some sp_sess pls e :
  failure (source_stream parse sp_sess pls) = Some e →
  ∃ pl, pl ∈ pls ∧ failure (tracks_iterator parse sp_sess pl true) = Some e.
Proof.
  induction pls as [|pl' pls IH]; [done|].
  rewrite source_stream_cons.
  intros [Hf|(pl & Hin & Hpl)%IH]%stream_app_failure_Some.
  - exists pl'. split; [by left | done].
  - exists pl. split; [by right | done].
Qed.

Lemma source_stream_yielded sp_sess pls t :
  t ∈ yielded (source_stream parse sp_sess pls) →
  ∃ pl, pl ∈ pls ∧ t ∈ yielded (tracks_iterator parse sp_sess pl true).
Proof.
  induction pls as [|pl' pls IH]; [by intros ?%elem_of_nil|].
  rewrite source_stream_cons. intros [Hin|Hin]%stream_app_yielded.
  - exists pl'. split; [by left | done].
  - destruct (IH Hin) as (pl & Hpl & Ht). exists pl. split; [by right | done].
Qed.

Lemma source_stream_without_null_ids sp_sess pls :
  (∀ pl item, pl ∈ pls → item ∈ contents sp_sess pl →
     item_track_id item = None → ∃ t, TrackAddedAt_init parse item = Ok t) →
  source_stream parse (without_null_ids sp_sess) pls
  = source_stream parse sp_sess pls.
Proof.
  induction pls as [|pl pls IH]; intros Hnull; [done|].
  rewrite !source_stream_cons.
  rewrite IH by (intros pl' item Hin; apply Hnull; by right).
  f_equal. rewrite !tracks_iterator_true, contents_without_null_ids.
  apply yield_items_filter.
  - intros item t. apply TrackAddedAt_init_track_id.
  - intros item. apply Hnull. by left.
Qed.

End GeneratorFacts.

(** ** The exclusion set *)

Section Excluded.
Variable parse : string → option Z.

Lemma foldl_add_keys (l : list Track) (acc : gset TrackKey) :
  foldl (λ acc t, {[Track_key t]} ∪ acc) acc l
  = list_to_set (Track_key <$> l) ∪ acc.
Proof.
  revert acc. induction l as [|t l IH]; intros acc; simpl.
  - set_solver.
  - rewrite IH. set_solver.
Qed.

Lemma aggregate_excluded_tracks_from (sp_sess : Session)
    (pls : list Playlist) (acc : gset TrackKey) :
  foldM
    (λ excluded pl,
       for_each (tracks_iterator parse sp_sess pl false)
         (λ excluded (track : Track), Ok ({[Track_key track]} ∪ excluded))
         excluded)
    acc pls
  = Ok (acc ∪ ⋃ (playlist_keys sp_sess <$> pls)).
Proof.
  revert acc. induction pls as [|pl pls IH]; intros acc.
  - simpl. f_equal. set_solver.
  - cbn [foldM]. rewrite tracks_iterator_false. unfold for_each. cbn [yielded failure].
    rewrite (foldM_total _ (λ acc t, {[Track_key t]} ∪ acc)) by done.
    cbn [mbind result_bind]. rewrite IH, foldl_add_keys. f_equal.
    rewrite fmap_cons. unfold playlist_keys at 3. set_solver.
Qed.

Lemma aggregate_excluded_tracks_eq sp_sess pls :
  aggregate_excluded_tracks parse sp_sess pls
  = Ok (⋃ (playlist_keys sp_sess <$> pls)).
Proof.
  unfold aggregate_excluded_tracks. rewrite aggregate_excluded_tracks_from.
  f_equal. set_solver.
Qed.

Lemma playlist_keys_without_null_ids sp_sess pl :
  playlist_keys (without_null_ids sp_sess) pl = playlist_keys sp_sess pl.
Proof.
  unfold playlist_keys. rewrite contents_without_null_ids. f_equal. f_equal.
  induction (contents sp_sess pl) as [|item its IH]; [done|].
  rewrite fmap_cons, !filter_cons. simpl.
  destruct (decide (is_Some (item_track_id item))).
  - rewrite fmap_cons, filter_cons. simpl. rewrite decide_True by done.
    by rewrite IH.
  - done.
Qed.

(** C9. The set [aggregate_excluded_tracks] returns is the same for every
    order of the exclude playlists. *)
Theorem aggregate_excluded_tracks_permutation sp_sess
    (exclude_playlists exclude_playlists' : list Playlist) :
  exclude_playlists ≡ₚ exclude_playlists' →
  aggregate_excluded_tracks parse sp_sess exclude_playlists
  = aggregate_excluded_tracks parse sp_sess exclude_playlists'.
Proof.
  intros Hperm. rewrite !aggregate_excluded_tracks_eq. f_equal.
  apply set_eq. intros k. rewrite !elem_of_union_list.
  by setoid_rewrite Hperm.
Qed.

End Excluded.

(** ** Errors *)

Section Errors.
Variable parse : string → option Z.

(** C8. When the [added_at] string of a record of a source playlist does
    not parse, [aggregate_source_tracks] raises and returns no list; with a
    positive capacity the exception is the one a record's
    [TrackAddedAt.__init__] raised. *)
Theorem aggregate_source_tracks_parse_error sp_sess source_playlists excluded
    output_len pl item str :
  pl ∈ source_playlists → item ∈ contents sp_sess pl →
  item_added_at item = Some str → parse str = None →
  ∃ e,
    aggregate_source_tracks parse sp_sess source_playlists excluded output_len
      = Raise e ∧
    (0 < output_len →
     ∃ pl' item', pl' ∈ source_playlists ∧ item' ∈ contents sp_sess pl' ∧
       TrackAddedAt_init parse item' = Raise e).
Proof.
  intros Hpl Hitem Hat Hparse.
  destruct (aggregate_source_tracks parse sp_sess source_playlists excluded
              output_len) as [ids|e] eqn:Hres.
  - exfalso.
    apply aggregate_source_tracks_Ok in Hres as (s & Hs & _).
    apply aggregate_source_state_Ok in Hs as [_ Hf].
    eapply source_stream_failure_None in Hf; [|exact Hpl].
    rewrite tracks_iterator_true in Hf.
    apply yield_items_failure_None in Hf.
    rewrite Forall_forall in Hf. destruct (Hf item Hitem) as [t Ht].
    unfold TrackAddedAt_init in Ht. by rewrite Hat, Hparse in Ht.
  - exists e. split; [done|]. intros HK.
    unfold aggregate_source_tracks, aggregate_source_state in Hres.
    rewrite source_loop_stream in Hres. unfold for_each in Hres.
    destruct (foldM_body_pos output_len (initial excluded)
                (yielded (source_stream parse sp_sess source_playlists)) HK)
      as [s' Hs'].
    rewrite Hs' in Hres. cbn [mbind result_bind] in Hres.
    destruct (failure (source_stream parse sp_sess source_playlists))
      as [e'|] eqn:Hf; [|done].
    simpl in Hres. injection Hres as ->.
    apply source_stream_failure_Some in Hf as (pl' & Hpl' & Hf).
    rewrite tracks_iterator_true in Hf.
    apply yield_items_failure_Some in Hf as (item' & Hitem' & Hr).
    eauto.
Qed.

End Errors.

(** ** Where the selected tracks come from *)

Section Membership.
Variable parse : string → option Z.
Implicit Types (s : State) (t x : TrackAddedAt) (K : Z).

Lemma accept_state_elem K s t x :
  x ∈ included_tracks (accept_state K s t) → x = t ∨ x ∈ included_tracks s.
Proof.
  unfold accept_state. case_bool_decide; [by right|]. simpl. intros Hx.
  eapply elem_of_sublist in Hx; [|apply trim_sublist].
  rewrite sorted_reverse_perm in Hx. apply elem_of_app in Hx as [?|Hx]; [by right|].
  left. by apply list_elem_of_singleton in Hx.
Qed.

Lemma accept_state_excluded K s t :
  excluded_tracks (accept_state K s t) = excluded_tracks s ∨
  ((key t ∉ excluded_tracks s) ∧
   excluded_tracks (accept_state K s t) = {[key t]} ∪ excluded_tracks s).
Proof. unfold accept_state. case_bool_decide; [by left | by right]. Qed.

Lemma foldM_body_elem K s l s' x :
  foldM (aggregate_body K) s l = Ok s' →
  x ∈ included_tracks s' → x ∈ included_tracks s ∨ x ∈ l.
Proof.
  revert s. induction l as [|t l IH]; intros s; simpl.
  - intros [= <-]. by left.
  - intros (s1 & Hb & Hl)%bind_Ok Hx.
    destruct (IH _ Hl Hx) as [Hx1|Hx1]; [|right; by right].
    apply aggregate_body_Ok in Hb as [->| ->]; [by left|].
    apply accept_state_elem in Hx1 as [->|?]; [right; by left | by left].
Qed.

Lemma foldM_body_excluded K s l s' :
  foldM (aggregate_body K) s l = Ok s' →
  excluded_tracks s ⊆ excluded_tracks s' ∧
  excluded_tracks s' ⊆ excluded_tracks s ∪ list_to_set (key <$> l).
Proof.
  revert s. induction l as [|t l IH]; intros s; simpl.
  - intros [= <-]. set_solver.
  - intros (s1 & Hb & Hl)%bind_Ok. destruct (IH _ Hl) as [IH1 IH2].
    apply aggregate_body_Ok in Hb as [->| ->]; [set_solver|].
    destruct (accept_state_excluded K s t) as [Heq|[_ Heq]];
      rewrite Heq in *; set_solver.
Qed.

Lemma source_stream_track_ids sp_sess pls :
  Forall (λ t, is_Some (track_id (as_track t)))
    (yielded (source_stream parse sp_sess pls)).
Proof.
  apply Forall_forall. intros t (pl & _ & Ht)%source_stream_yielded.
  rewrite tracks_iterator_true in Ht.
  pose proof (yield_items_tid (TrackAddedAt_init parse)
                (λ t, track_id (as_track t)) (contents sp_sess pl)) as Hall.
  rewrite Forall_forall in Hall. by apply Hall.
Qed.

(** C7 (as the code has it). A record without track id is never yielded by
    [tracks_iterator]; the set [aggregate_excluded_tracks] returns is the
    one it returns when these records are absent; when the [added_at] of
    every such record of the source playlists parses,
    [aggregate_source_tracks] behaves as if these records were absent,
    whatever their dates; and the list it returns holds no null id. *)
Theorem null_id_records_dropped sp_sess exclude_playlists source_playlists
    excluded output_len :
  (∀ pl, Forall (λ t : Track, is_Some (track_id t))
           (yielded (tracks_iterator parse sp_sess pl false))) ∧
  (∀ pl, Forall (λ t : TrackAddedAt, is_Some (track_id (as_track t)))
           (yielded (tracks_iterator parse sp_sess pl true))) ∧
  (∃ keys, aggregate_excluded_tracks parse sp_sess exclude_playlists = Ok keys ∧
     aggregate_excluded_tracks parse (without_null_ids sp_sess)
       exclude_playlists = Ok keys) ∧
  ((∀ pl item, pl ∈ source_playlists → item ∈ contents sp_sess pl →
      item_track_id item = None → ∃ t, TrackAddedAt_init parse item = Ok t) →
   aggregate_source_tracks parse sp_sess source_playlists excluded output_len
   = aggregate_source_tracks parse (without_null_ids sp_sess)
       source_playlists excluded output_len) ∧
  (∀ ids,
     aggregate_source_tracks parse sp_sess source_playlists excluded output_len
       = Ok ids →
     Forall is_Some ids).
Proof.
  repeat split.
  - intros pl. unfold tracks_iterator. apply yield_items_tid_loop.
  - intros pl. unfold tracks_iterator. apply yield_items_tid_loop.
  - exists (⋃ (playlist_keys sp_sess <$> exclude_playlists)).
    rewrite !aggregate_excluded_tracks_eq. split; [done|]. f_equal. f_equal.
    apply list_fmap_ext. intros _ pl _. apply playlist_keys_without_null_ids.
  - intros Hnull.
    unfold aggregate_source_tracks, aggregate_source_state.
    rewrite !source_loop_stream. by rewrite source_stream_without_null_ids.
  - intros ids (s & Hs & ->)%aggregate_source_tracks_Ok.
    apply aggregate_source_state_Ok in Hs as [Hrun _].
    unfold track_ids. apply Forall_fmap, Forall_forall. intros x Hx.
    eapply foldM_body_elem in Hx as [Hx|Hx]; [| |exact Hrun].
    + by apply elem_of_nil in Hx.
    + pose proof (source_stream_track_ids sp_sess source_playlists) as Hall.
      rewrite Forall_forall in Hall. by apply Hall.
Qed.

End Membership.

(** ** First occurrence wins *)

Section FirstOccurrence.
Variable parse : string → option Z.
Implicit Types (s : State) (t x : TrackAddedAt) (K : Z).

Lemma accepts_body K s t :
  accepts K s t →
  aggregate_body K s t = Ok (accept_state K s t) ∧
  excluded_tracks (accept_state K s t) = {[key t]} ∪ excluded_tracks s.
Proof.
  intros [Hsc Hex]. unfold aggregate_body. rewrite Hsc. simpl.
  rewrite accept_track_eq. split; [done|].
  unfold accept_state. by rewrite bool_decide_eq_false_2.
Qed.

Lemma accept_state_excluded_id K s t :
  key t ∈ excluded_tracks s → accept_state K s t = s.
Proof. intros Hin. unfold accept_state. by rewrite bool_decide_eq_true_2. Qed.

(** C10. When a track is accepted, every later track of the same key is
    skipped, whatever its [added_at]: the key is in the exclusion set by
    then and the loop body leaves the state as it is.  So a selected track
    with the key of an accepted track is that accepted track, with its
    [added_at]. *)
Theorem first_occurrence_wins sp_sess source_playlists excluded output_len
    l1 a l2 s1 s :
  yielded (source_stream parse sp_sess source_playlists) = l1 ++ a :: l2 →
  aggregate_source_state parse sp_sess source_playlists excluded output_len
    = Ok s →
  foldM (aggregate_body output_len) (initial excluded) l1 = Ok s1 →
  accepts output_len s1 a →
  (∀ l2a b l2b, l2 = l2a ++ b :: l2b → key b = key a →
     ∃ sb, foldM (aggregate_body output_len) (initial excluded)
             (l1 ++ a :: l2a) = Ok sb ∧
           key b ∈ excluded_tracks sb ∧
           aggregate_body output_len sb b = Ok sb) ∧
  (∀ x, x ∈ included_tracks s → key x = key a → x = a).
Proof.
  intros Hstream [Hrun _]%aggregate_source_state_Ok Hs1 Hacc.
  rewrite Hstream, foldM_app, Hs1 in Hrun. cbn [mbind result_bind foldM] in Hrun.
  destruct (accepts_body _ _ _ Hacc) as [Hbody Hexcl].
  rewrite Hbody in Hrun. cbn [mbind result_bind] in Hrun.
  set (sa := accept_state output_len s1 a) in *.
  assert (Inv output_len excluded s1) as HI1.
  { eapply foldM_body_Inv; [apply Inv_init | exact Hs1]. }
  split.
  - intros l2a b l2b -> Hkey.
    rewrite foldM_app in Hrun. apply bind_Ok in Hrun as (sb & Hsb & Hrest).
    cbn [foldM] in Hrest. apply bind_Ok in Hrest as (sb' & Hb & _).
    exists sb.
    assert (key b ∈ excluded_tracks sb) as Hin.
    { apply foldM_body_excluded in Hsb as [Hmono _]. apply Hmono.
      rewrite Hexcl, Hkey. set_solver. }
    repeat split; [|done|].
    + rewrite foldM_app, Hs1. cbn [mbind result_bind foldM].
      rewrite Hbody. done.
    + apply aggregate_body_Ok in Hb as Hcases. rewrite Hb.
      destruct Hcases as [->| ->]; [done|]. by rewrite accept_state_excluded_id.
  - pose (J := λ s0, key a ∈ excluded_tracks s0 ∧
                     ∀ x, x ∈ included_tracks s0 → key x = key a → x = a).
    assert (J s) as [_ HJ]; [|exact HJ].
    eapply (foldM_invariant J); [| |exact Hrun].
    + intros s0 t s0' [Hin Hsel] [->| ->]%aggregate_body_Ok; [done|].
      destruct (decide (key t ∈ excluded_tracks s0)) as [Ht|Ht].
      { by rewrite accept_state_excluded_id. }
      split.
      * destruct (accept_state_excluded output_len s0 t) as [->|[_ ->]];
          set_solver.
      * intros x [->|Hx]%accept_state_elem Hkx; [|by apply Hsel].
        by rewrite <- Hkx in Hin.
    + split; [rewrite Hexcl; set_solver|].
      intros x [->|Hx]%accept_state_elem Hkx; [done|].
      destruct Hacc as [_ Hnot]. exfalso. apply Hnot. rewrite <- Hkx.
      by apply (inv_excl _ _ _ HI1).
Qed.

End FirstOccurrence.

(** ** Running the aggregation again *)

Section Reaggregation.
Variable parse : string → option Z.
Implicit Types (s : State) (t x : TrackAddedAt) (K : Z).

Lemma removelast_length {A} (l : list A) :
  length (removelast l) = pred (length l).
Proof.
  destruct (last l) as [x|] eqn:Hl.
  - apply last_Some in Hl as [l' ->]. rewrite removelast_last, length_app.
    simpl. lia.
  - by apply last_None in Hl as ->.
Qed.

Lemma trim_cases K l :
  (Z.of_nat (length l) ≤ K ∧ trim K l = l) ∨
  (K < Z.of_nat (length l) ∧ trim K l = removelast l).
Proof. unfold trim. destruct (_ >? _) eqn:H; [right | left]; split; (done || lia). Qed.

Lemma accept_state_length K s t :
  (length (included_tracks s)
   ≤ length (included_tracks (accept_state K s t)))%nat.
Proof.
  unfold accept_state. case_bool_decide; [done|]. simpl.
  pose proof (Permutation_length
                (sorted_reverse_perm (included_tracks s ++ [t]))) as Hlen.
  rewrite length_app in Hlen. simpl in Hlen.
  destruct (trim_cases K (sorted_reverse (included_tracks s ++ [t])))
    as [[_ ->]|[_ ->]]; [lia|]. rewrite removelast_length. lia.
Qed.

(** A run that ends below capacity never skipped a track for its date: every
    track it saw is selected or has an excluded key. *)
Lemma below_capacity K s l s' :
  foldM (aggregate_body K) s l = Ok s' →
  Z.of_nat (length (included_tracks s')) < K →
  (length (included_tracks s) ≤ length (included_tracks s'))%nat ∧
  (∀ x, x ∈ included_tracks s → x ∈ included_tracks s') ∧
  (∀ t, t ∈ l → key t ∈ excluded_tracks s ∨
                ∃ x, x ∈ included_tracks s' ∧ key x = key t).
Proof.
  revert s. induction l as [|t l IH]; intros s; simpl.
  - intros [= <-] _. repeat split; [done..|]. by intros t ?%elem_of_nil.
  - intros (s1 & Hb & Hl)%bind_Ok Hlen.
    destruct (IH _ Hl Hlen) as (IHlen & IHin & IHl).
    destruct (aggregate_body_cases K s t)
      as [(_ & _ & Hr)|[(_ & _ & _ & HK & _ & Hr)|(_ & Hr)]];
      rewrite Hr in Hb; [done|..]; injection Hb as <-; [lia|].
    pose proof (accept_state_length K s t) as Hstep.
    destruct (decide (key t ∈ excluded_tracks s)) as [Ht|Ht].
    { rewrite accept_state_excluded_id in * by done.
      repeat split; [done..|].
      intros t' [->|Ht']%elem_of_cons; [by left | by apply IHl]. }
    assert (t ∈ included_tracks (accept_state K s t) ∧
            (∀ x, x ∈ included_tracks s →
                  x ∈ included_tracks (accept_state K s t)) ∧
            excluded_tracks (accept_state K s t)
            = {[key t]} ∪ excluded_tracks s) as (Htin & Hsub & Hexcl).
    { unfold accept_state in *. rewrite bool_decide_eq_false_2 in * by done.
      simpl in *.
      pose proof (Permutation_length
                    (sorted_reverse_perm (included_tracks s ++ [t]))) as Hl'.
      rewrite length_app in Hl'. simpl in Hl'.
      destruct (trim_cases K (sorted_reverse (included_tracks s ++ [t])))
        as [[_ Heq]|[Hgt Heq]]; rewrite Heq in *.
      - split; [|split; [|done]].
        + rewrite sorted_reverse_perm. set_solver.
        + intros x Hx. rewrite sorted_reverse_perm. set_solver.
      - rewrite removelast_length in IHlen. lia. }
    repeat split; [lia|by auto|].
    intros t' [->|Ht']%elem_of_cons.
    + right. exists t. by auto.
    + destruct (IHl t' Ht') as [Hex|?]; [|by right].
      rewrite Hexcl in Hex. apply elem_of_union in Hex as [Hex|Hex]; [|by left].
      apply elem_of_singleton in Hex. right. exists t. by auto.
Qed.

Lemma all_excluded_skipped K s l :
  0 < K → (∀ t, t ∈ l → key t ∈ excluded_tracks s) →
  foldM (aggregate_body K) s l = Ok s.
Proof.
  intros HK. induction l as [|t l IH]; intros Hall; simpl; [done|].
  destruct (aggregate_body_cases K s t)
    as [(_ & ? & _)|[(_ & _ & _ & _ & _ & ->)|(_ & ->)]]; [lia|..].
  - apply IH. intros t' Ht'. apply Hall. by right.
  - rewrite accept_state_excluded_id by (apply Hall; by left).
    apply IH. intros t' Ht'. apply Hall. by right.
Qed.

Lemma foldM_body_returns K seed l s :
  foldM (aggregate_body K) (initial seed) l = Ok s → l = [] ∨ 0 < K.
Proof.
  intros Hrun. destruct l as [|t l]; [by left|]. right.
  destruct (decide (0 < K)) as [|HK]; [done|].
  rewrite foldM_body_nonpos in Hrun; [done|lia|done].
Qed.

(** C5 (as the code has it). Run again on the same playlists with the keys
    of the first selection added to the exclusion set,
    [aggregate_source_tracks] returns, and selects no track with a key of
    the first selection or of the original exclusion set; when the first
    selection was shorter than the capacity, the second one is empty. *)
Theorem reaggregation sp_sess source_playlists excluded output_len s1 :
  aggregate_source_state parse sp_sess source_playlists excluded output_len
    = Ok s1 →
  ∃ s2,
    aggregate_source_state parse sp_sess source_playlists
      (excluded ∪ list_to_set (key <$> included_tracks s1)) output_len
      = Ok s2 ∧
    aggregate_source_tracks parse sp_sess source_playlists
      (excluded ∪ list_to_set (key <$> included_tracks s1)) output_len
      = Ok (track_ids (included_tracks s2)) ∧
    (∀ x, x ∈ included_tracks s2 →
       (key x ∉ excluded) ∧ ∀ y, y ∈ included_tracks s1 → key x ≠ key y) ∧
    (Z.of_nat (length (included_tracks s1)) < output_len →
     included_tracks s2 = []).
Proof.
  intros [Hrun Hfail]%aggregate_source_state_Ok.
  set (seed2 := excluded ∪ list_to_set (key <$> included_tracks s1)).
  set (l := yielded (source_stream parse sp_sess source_playlists)) in *.
  assert (∃ s2, foldM (aggregate_body output_len) (initial seed2) l = Ok s2)
    as [s2 Hrun2].
  { destruct (foldM_body_returns _ _ _ _ Hrun) as [->|HK]; [by eexists|].
    by apply foldM_body_pos. }
  assert (aggregate_source_state parse sp_sess source_playlists seed2
            output_len = Ok s2) as Hs2.
  { by apply aggregate_source_state_Ok. }
  exists s2. repeat split.
  - done.
  - unfold aggregate_source_tracks. by rewrite Hs2.
  - apply aggregate_source_state_Inv in Hs2.
    pose proof (inv_fresh _ _ _ Hs2 x H). set_solver.
  - intros y Hy Hk. apply aggregate_source_state_Inv in Hs2.
    pose proof (inv_fresh _ _ _ Hs2 x H) as Hx. apply Hx.
    unfold seed2. apply elem_of_union_r, elem_of_list_to_set, list_elem_of_fmap.
    by exists y.
  - intros Hlen.
    destruct (below_capacity _ _ _ _ Hrun Hlen) as (_ & _ & Hsaw).
    rewrite (all_excluded_skipped output_len (initial seed2) l) in Hrun2.
    + by injection Hrun2 as <-.
    + lia.
    + intros t Ht. destruct (Hsaw t Ht) as [Hex|(x & Hx & Hk)]; simpl.
      * by apply elem_of_union_l.
      * apply elem_of_union_r, elem_of_list_to_set, list_elem_of_fmap.
        by exists x.
Qed.

End Reaggregation.

(** ** The aggregation without the early test *)

Section WithoutShortCircuit.
Variable parse : string → option Z.
Implicit Types (s : State) (t x : TrackAddedAt) (K : Z).

(** A track the early test skips would be sorted to the end and removed at
    once. *)
Lemma short_circuit_redundant K s l m t :
  StronglySorted desc (included_tracks s) →
  included_tracks s = l ++ [m] →
  K ≤ Z.of_nat (length (included_tracks s)) →
  added_at t ≤ added_at m →
  included_tracks (accept_state K s t) = included_tracks s.
Proof.
  intros Hsorted Hl HK Htm. unfold accept_state. case_bool_decide; [done|].
  simpl. rewrite sorted_reverse_snoc_sorted by done.
  rewrite insert_last_snoc.
  - destruct (trim_cases K (included_tracks s ++ [t])) as [[Hle _]|[_ ->]].
    + rewrite length_app in Hle. simpl in Hle. lia.
    + apply removelast_last.
  - rewrite Hl in Hsorted |- *. apply Forall_app. split.
    + apply Forall_forall. intros y Hy.
      assert (desc y m) as Hd.
      { eapply StronglySorted_app_1_elem_of; [exact Hsorted|done|by left]. }
      unfold desc in Hd. lia.
    + by constructor.
Qed.

Lemma short_circuit_true K s l m t :
  included_tracks s = l ++ [m] →
  K ≤ Z.of_nat (length (included_tracks s)) →
  added_at t ≤ added_at m →
  short_circuit K s t = Ok true.
Proof.
  intros Hl HK Htm. unfold short_circuit, last_item.
  assert ((Z.of_nat (length (included_tracks s)) >=? K) = true) as ->
    by (apply Z.geb_le; lia).
  rewrite Hl, last_snoc. simpl. f_equal. lia.
Qed.

Lemma settled_last K s l m t :
  StronglySorted desc (included_tracks s) →
  included_tracks s = l ++ [m] →
  K ≤ Z.of_nat (length (included_tracks s)) →
  added_at t ≤ added_at m →
  settled K s t.
Proof.
  intros Hsorted Hl HK Htm. split; [done|].
  rewrite Hl in Hsorted |- *. apply Forall_app. split; [|by constructor].
  apply Forall_forall. intros y Hy.
  assert (desc y m) as Hd.
  { eapply StronglySorted_app_1_elem_of; [exact Hsorted|done|by left]. }
  unfold desc in Hd. lia.
Qed.

(** A settled track is skipped by the early test. *)
Lemma settled_not_accepted K s t :
  settled K s t →
  ¬ (Z.of_nat (length (included_tracks s)) < K ∨
     ∃ l m, included_tracks s = l ++ [m] ∧ added_at m < added_at t).
Proof.
  intros [HK Hall] [Hlt|(l & m & Hl & Hmt)]; [lia|].
  rewrite Forall_forall in Hall.
  assert (added_at t ≤ added_at m); [|lia].
  apply Hall. rewrite Hl. apply elem_of_app. right. by left.
Qed.

(** A settled track stays settled when another track is accepted. *)
Lemma settled_accept K s t t' :
  settled K s t' →
  (∃ l m, included_tracks s = l ++ [m] ∧ added_at m < added_at t) →
  settled K (accept_state K s t) t'.
Proof.
  intros [HK Hall] (l & m & Hl & Hmt). unfold accept_state.
  case_bool_decide; [done|]. unfold settled. simpl.
  pose proof (Permutation_length
                (sorted_reverse_perm (included_tracks s ++ [t]))) as Hlen.
  rewrite length_app in Hlen. simpl in Hlen.
  assert (added_at t' ≤ added_at t) as Ht.
  { rewrite Forall_forall in Hall.
    assert (added_at t' ≤ added_at m); [|lia].
    apply Hall. rewrite Hl. apply elem_of_app. right. by left. }
  destruct (trim_cases K (sorted_reverse (included_tracks s ++ [t])))
    as [[Hle _]|[_ ->]]; [lia|].
  split; [rewrite removelast_length; lia|].
  apply Forall_forall. intros y Hy.
  eapply elem_of_sublist in Hy; [|apply removelast_sublist].
  rewrite sorted_reverse_perm in Hy.
  apply elem_of_app in Hy as [Hy|Hy]; [|apply list_elem_of_singleton in Hy; by subst y].
  rewrite Forall_forall in Hall. by apply Hall.
Qed.

Lemma no_newer_repeat_tail K s t s' l :
  aggregate_body K s t = Ok s' →
  no_newer_repeat_of_skipped K s (t :: l) →
  no_newer_repeat_of_skipped K s' l.
Proof.
  intros Hbody Hyp l1 u l2 s1 -> Hrun. apply (Hyp (t :: l1) u l2 s1); [done|].
  cbn [foldM]. by rewrite Hbody.
Qed.

(** Streams whose tracks have pairwise different keys have no repeat at
    all. *)
Lemma NoDup_no_newer_repeat K s l :
  NoDup (key <$> l) → no_newer_repeat_of_skipped K s l.
Proof.
  intros Hnd l1 t l2 s1 -> _ _ _ t' Ht' Hk. exfalso.
  rewrite fmap_app, fmap_cons in Hnd.
  apply NoDup_app in Hnd as (_ & _ & Hnd).
  apply NoDup_cons in Hnd as [Hnot _]. apply Hnot.
  rewrite <- Hk. apply list_elem_of_fmap. by exists t'.
Qed.

(** The two runs side by side: the same list, a set that is larger without
    the early test, and every track of the difference settled. *)
Lemma without_short_circuit K seed s1 s2 l :
  0 < K → Inv K seed s1 →
  included_tracks s2 = included_tracks s1 →
  excluded_tracks s1 ⊆ excluded_tracks s2 →
  (∀ t, t ∈ l → key t ∈ excluded_tracks s2 → key t ∉ excluded_tracks s1 →
        settled K s1 t) →
  no_newer_repeat_of_skipped K s1 l →
  ∃ s1' s2',
    foldM (aggregate_body K) s1 l = Ok s1' ∧
    foldM (accept_track K) s2 l = Ok s2' ∧
    included_tracks s2' = included_tracks s1'.
Proof.
  intros HK. revert s1 s2.
  induction l as [|t l IH]; intros s1 s2 HI Hincl Hsub Hdiff Hyp.
  { exists s1, s2. by repeat split. }
  cbn [foldM]. rewrite accept_track_eq. cbn [mbind result_bind].
  assert (∀ t', t' ∈ l → key t' ∈ excluded_tracks s2 →
                key t' ∉ excluded_tracks s1 → settled K s1 t') as Hdiff'.
  { intros t' Ht'. apply Hdiff. by right. }
  destruct (aggregate_body_cases K s1 t)
    as [(_ & ? & _)|[(l0 & m & Hl0 & HKlen & Htm & Hbody)|(Hwhy & Hbody)]];
    [lia|..]; pose proof (no_newer_repeat_tail _ _ _ _ _ Hbody Hyp) as Hyp';
    rewrite Hbody; cbn [mbind result_bind].
  - apply IH; [done| | |  |done].
    + rewrite <- Hincl.
      apply (short_circuit_redundant K s2 l0 m t); rewrite ?Hincl;
        [apply HI|done..].
    + destruct (accept_state_excluded K s2 t) as [->|[_ ->]]; set_solver.
    + intros t' Ht' Hin2 Hnot1.
      destruct (accept_state_excluded K s2 t) as [Heq|[_ Heq]];
        rewrite Heq in Hin2; [by apply Hdiff'|].
      apply elem_of_union in Hin2 as [Hk%elem_of_singleton|?];
        [|by apply Hdiff'].
      apply (settled_last K s1 l0 m); [apply HI|done..|].
      assert (added_at t' ≤ added_at t); [|lia].
      apply (Hyp [] t l s1); [done|done| |by rewrite <- Hk|done..].
      by apply (short_circuit_true K s1 l0 m).
  - destruct (decide (key t ∈ excluded_tracks s1)) as [Hin1|Hnot1].
    { rewrite !accept_state_excluded_id by set_solver.
      rewrite accept_state_excluded_id in Hyp' by done. by apply IH. }
    destruct (decide (key t ∈ excluded_tracks s2)) as [Hin2|Hnot2].
    { exfalso. apply (settled_not_accepted K s1 t); [|done].
      apply Hdiff; [by left|done..]. }
    assert (excluded_tracks (accept_state K s1 t)
            = {[key t]} ∪ excluded_tracks s1) as Hex1.
    { unfold accept_state. by rewrite bool_decide_eq_false_2. }
    assert (excluded_tracks (accept_state K s2 t)
            = {[key t]} ∪ excluded_tracks s2) as Hex2.
    { unfold accept_state. by rewrite bool_decide_eq_false_2. }
    apply IH; [by apply accept_state_Inv| | | |done].
    + unfold accept_state. rewrite !bool_decide_eq_false_2 by done.
      simpl. by rewrite Hincl.
    + rewrite Hex1, Hex2. set_solver.
    + intros t' Ht'. rewrite Hex1, Hex2. intros Hin2' Hnot1'.
      assert (settled K s1 t') as Hset.
      { apply not_elem_of_union in Hnot1' as [Hne Hnot1'].
        apply elem_of_union in Hin2' as [Hk|Hin2']; [done|].
        by apply Hdiff'. }
      apply settled_accept; [done|].
      destruct Hwhy as [Hlt|?]; [|done]. destruct Hset as [? _]. lia.
Qed.

(** C2 (as the code has it). For a positive capacity, the aggregation
    without the early test returns what [aggregate_source_tracks] returns,
    or raises as it does, whenever no track that the early test skips while
    its key is not yet excluded is followed by a more recent track of the
    same key. *)
Theorem short_circuit_removable sp_sess source_playlists excluded output_len :
  0 < output_len →
  (∀ l1 t l2 s1,
     yielded (source_stream parse sp_sess source_playlists) = l1 ++ t :: l2 →
     foldM (aggregate_body output_len) (initial excluded) l1 = Ok s1 →
     short_circuit output_len s1 t = Ok true →
     key t ∉ excluded_tracks s1 →
     ∀ t', t' ∈ l2 → key t' = key t → added_at t' ≤ added_at t) →
  aggregate_source_tracks_nocheck parse sp_sess source_playlists excluded
    output_len
  = aggregate_source_tracks parse sp_sess source_playlists excluded
      output_len.
Proof.
  intros HK Hyp.
  unfold aggregate_source_tracks_nocheck, aggregate_source_tracks,
    aggregate_source_state.
  rewrite !source_loop_stream. unfold for_each.
  destruct (without_short_circuit output_len excluded
              (initial excluded) (initial excluded)
              (yielded (source_stream parse sp_sess source_playlists)))
    as (s1' & s2' & Hrun1 & Hrun2 & Hincl);
    [done|apply Inv_init|done|done|by intros t _ ? ?|exact Hyp|].
  rewrite Hrun1, Hrun2. cbn [mbind result_bind].
  destruct (failure (source_stream parse sp_sess source_playlists)); [done|].
  simpl. by rewrite Hincl.
Qed.

End WithoutShortCircuit.

(** ** Ties *)

Section Ties.
Variable parse : string → option Z.
Implicit Types (s : State) (a b t x : TrackAddedAt) (K : Z)
  (l p q : list TrackAddedAt).

Lemma insert_desc_filter (v : Z) x l :
  filter (λ y, added_at y = v) (insert_desc x l)
  = filter (λ y, added_at y = v) (x :: l).
Proof.
  induction l as [|y l IH]; [done|]. simpl. unfold TrackAddedAt_lt.
  destruct (added_at x <? added_at y) eqn:Hxy; [|done].
  rewrite (filter_cons _ y), IH, !filter_cons.
  repeat case_decide; (done || lia).
Qed.

(** The re-sort leaves tracks of one date in the order they had. *)
Lemma sorted_reverse_stable (v : Z) l :
  filter (λ y, added_at y = v) (sorted_reverse l)
  = filter (λ y, added_at y = v) l.
Proof.
  induction l as [|x l IH]; [done|]. simpl.
  rewrite insert_desc_filter, !filter_cons, IH. done.
Qed.

Lemma insert_last_before t p a q :
  added_at a < added_at t →
  insert_last t (p ++ a :: q) = insert_last t p ++ a :: q.
Proof.
  intros Hat. induction p as [|y p IH]; simpl; unfold TrackAddedAt_lt.
  - by assert ((added_at a <? added_at t) = true) as -> by lia.
  - destruct (added_at y <? added_at t); [done|]. by rewrite IH.
Qed.

Lemma insert_last_after t p a q :
  Forall (λ y, added_at t ≤ added_at y) p → added_at t ≤ added_at a →
  insert_last t (p ++ a :: q) = p ++ a :: insert_last t q.
Proof.
  intros Hp Hat. induction Hp as [|y p Hy _ IH]; simpl; unfold TrackAddedAt_lt.
  - by assert ((added_at a <? added_at t) = false) as -> by lia.
  - assert ((added_at y <? added_at t) = false) as -> by lia. by rewrite IH.
Qed.

Lemma removelast_middle p a q :
  q ≠ [] → removelast (p ++ a :: q) = p ++ a :: removelast q.
Proof.
  intros Hq. rewrite removelast_app by done. by destruct q.
Qed.

(** Cutting a sorted list that holds [a] with no [b] in front. *)
Lemma trim_tie K a b p q :
  StronglySorted desc (p ++ a :: q) → b ∉ p →
  tie_open a b (trim K (p ++ a :: q)) ∨
  tie_closed K a b (trim K (p ++ a :: q)).
Proof.
  intros Hsorted Hb.
  destruct (trim_cases K (p ++ a :: q)) as [[_ ->]|[Hlen ->]].
  { left. by exists p, q. }
  destruct (decide (q = [])) as [->|Hq].
  - right. rewrite removelast_last. rewrite length_app in Hlen. simpl in Hlen.
    repeat split; [lia| |done].
    apply Forall_forall. intros y Hy.
    assert (desc y a) as Hd;
      [eapply StronglySorted_app_1_elem_of; [exact Hsorted|done|by left]|].
    exact Hd.
  - left. rewrite removelast_middle by done. by exists p, (removelast q).
Qed.

(** Inserting [t] into a sorted list that holds [a] with no [b] in front,
    for a [b] as old as [a]. *)
Lemma insert_last_tie a b t p q :
  StronglySorted desc (p ++ a :: q) → b ∉ p → added_at b = added_at a →
  ∃ p' q', insert_last t (p ++ a :: q) = p' ++ a :: q' ∧ b ∉ p'.
Proof.
  intros Hsorted Hb Hat.
  destruct (decide (added_at a < added_at t)) as [Hlt|Hge].
  - exists (insert_last t p), q. split; [by apply insert_last_before|].
    rewrite insert_last_perm. intros [->|?]%elem_of_cons; [lia|done].
  - exists p, (insert_last t q). split; [|done].
    apply insert_last_after; [|lia].
    apply Forall_forall. intros y Hy.
    assert (desc y a) as Hd;
      [eapply StronglySorted_app_1_elem_of; [exact Hsorted|done|by left]|].
    unfold desc in Hd. lia.
Qed.

Lemma tie_step K seed a b s t s' :
  Inv K seed s → added_at b = added_at a →
  tie_open a b (included_tracks s) ∨ tie_closed K a b (included_tracks s) →
  aggregate_body K s t = Ok s' →
  tie_open a b (included_tracks s') ∨ tie_closed K a b (included_tracks s').
Proof.
  intros HI Hat Htie Hbody.
  destruct (aggregate_body_cases K s t)
    as [(_ & _ & Hr)|[(_ & _ & _ & _ & _ & Hr)|(Hwhy & Hr)]];
    rewrite Hr in Hbody; [done|..]; injection Hbody as <-; [done|].
  destruct (decide (key t ∈ excluded_tracks s)) as [Hex|Hex].
  { by rewrite accept_state_excluded_id. }
  unfold accept_state. rewrite bool_decide_eq_false_2 by done. simpl.
  rewrite sorted_reverse_snoc_sorted by apply HI.
  pose proof (insert_last_sorted t _ (inv_sorted _ _ _ HI)) as Hsorted'.
  destruct Htie as [(p & q & Hpq & Hb)|(Hfull & Hall & Hb)].
  - rewrite Hpq in Hsorted' |- *.
    destruct (insert_last_tie a b t p q) as (p' & q' & Heq & Hb');
      [rewrite <- Hpq; apply HI|done..|].
    rewrite Heq in Hsorted' |- *. by apply trim_tie.
  - right.
    destruct Hwhy as [Hlt|(l0 & m & Hl0 & Hmt)]; [lia|].
    assert (added_at a < added_at t) as Hlt.
    { rewrite Forall_forall in Hall.
      assert (added_at a ≤ added_at m); [|lia].
      apply Hall. rewrite Hl0. apply elem_of_app. right. by left. }
    pose proof (Permutation_length (insert_last_perm t (included_tracks s)))
      as Hlen. simpl in Hlen.
    destruct (trim_cases K (insert_last t (included_tracks s)))
      as [[Hle _]|[_ ->]]; [lia|].
    assert (∀ y, y ∈ removelast (insert_last t (included_tracks s)) →
                 y = t ∨ y ∈ included_tracks s) as Hmem.
    { intros y Hy. eapply elem_of_sublist in Hy; [|apply removelast_sublist].
      rewrite insert_last_perm in Hy. by apply elem_of_cons in Hy. }
    repeat split.
    + rewrite removelast_length. lia.
    + apply Forall_forall. intros y [->|Hy]%Hmem; [lia|].
      rewrite Forall_forall in Hall. by apply Hall.
    + intros [->|Hy]%Hmem; [lia|done].
Qed.

Lemma tie_start K seed a b s sa :
  Inv K seed s → key a ∉ excluded_tracks s → b ∉ included_tracks s →
  aggregate_body K s a = Ok sa →
  tie_open a b (included_tracks sa) ∨ tie_closed K a b (included_tracks sa).
Proof.
  intros HI Hex Hb Hbody.
  destruct (aggregate_body_cases K s a)
    as [(_ & _ & Hr)|[(l0 & m & Hl0 & HK & Ham & Hr)|(_ & Hr)]];
    rewrite Hr in Hbody; [done|..]; injection Hbody as <-.
  - right. repeat split; [done| |done].
    pose proof (inv_sorted _ _ _ HI) as Hsorted. rewrite Hl0 in Hsorted |- *.
    apply Forall_app. split; [|by constructor].
    apply Forall_forall. intros y Hy.
    assert (desc y m) as Hd;
      [eapply StronglySorted_app_1_elem_of; [exact Hsorted|done|by left]|].
    unfold desc in Hd. lia.
  - unfold accept_state. rewrite bool_decide_eq_false_2 by done. simpl.
    rewrite sorted_reverse_snoc_sorted by apply HI.
    pose proof (insert_last_sorted a _ (inv_sorted _ _ _ HI)) as Hsorted'.
    destruct (insert_last_split a _ (inv_sorted _ _ _ HI))
      as (hi & lo & Hl & Heq & _ & _).
    rewrite Heq in Hsorted' |- *. apply trim_tie; [done|].
    intros Hin. apply Hb. rewrite Hl. apply elem_of_app. by left.
Qed.

(** C6 (as the code has it). The re-sort keeps tracks of one date in the
    order they had.  And for two records of different keys and one date,
    when the earlier one is not skipped by the identity check (its key is
    not in the exclusion set passed in and does not occur before it) and
    the later one is selected, the earlier one is selected too, ahead of
    it. *)
Theorem tie_first_seen sp_sess source_playlists excluded output_len
    l1 a l2 b s :
  (∀ l (v : Z),
     filter (λ y, added_at y = v) (sorted_reverse l)
     = filter (λ y, added_at y = v) l) ∧
  (yielded (source_stream parse sp_sess source_playlists) = l1 ++ a :: l2 →
   aggregate_source_state parse sp_sess source_playlists excluded output_len
     = Ok s →
   key a ∉ excluded → (∀ x, x ∈ l1 → key x ≠ key a) →
   b ∈ l2 → b ∉ l1 → key b ≠ key a → added_at b = added_at a →
   b ∈ included_tracks s →
   ∃ i j, (i < j)%nat ∧ included_tracks s !! i = Some a ∧
          included_tracks s !! j = Some b).
Proof.
  split; [intros l v; apply sorted_reverse_stable|].
  intros Hstream [Hrun _]%aggregate_source_state_Ok Hseed Hl1 _ Hb1 Hkey Hat Hsel.
  rewrite Hstream, foldM_app in Hrun. apply bind_Ok in Hrun as (s1 & Hs1 & Hrun).
  cbn [foldM] in Hrun. apply bind_Ok in Hrun as (sa & Hsa & Hrun).
  assert (Inv output_len excluded s1) as HI1.
  { eapply foldM_body_Inv; [apply Inv_init | exact Hs1]. }
  assert (key a ∉ excluded_tracks s1) as Hfresh.
  { intros Hin. apply foldM_body_excluded in Hs1 as [_ Hbound].
    apply Hbound in Hin. simpl in Hin.
    apply elem_of_union in Hin as [?|Hin]; [done|].
    apply elem_of_list_to_set, list_elem_of_fmap in Hin as (x & Hkx & Hx).
    by apply (Hl1 x). }
  assert (b ∉ included_tracks s1) as Hb.
  { intros Hin. eapply foldM_body_elem in Hin as [Hin|Hin]; [| |exact Hs1].
    - by apply elem_of_nil in Hin.
    - done. }
  pose (J := λ s0, Inv output_len excluded s0 ∧
                   (tie_open a b (included_tracks s0) ∨
                    tie_closed output_len a b (included_tracks s0))).
  assert (J s) as [_ [(p & q & Hpq & Hbp)|(_ & _ & Hnot)]]; [|..|done].
  { eapply (foldM_invariant J); [| |exact Hrun].
    - intros s0 t s0' [HI0 Htie] Hbody. split.
      + by eapply aggregate_body_Inv.
      + by eapply tie_step.
    - split; [by eapply aggregate_body_Inv|by eapply tie_start]. }
  rewrite Hpq in Hsel |- *.
  apply elem_of_app in Hsel as [?|Hsel]; [done|].
  apply elem_of_cons in Hsel as [->|Hsel]; [done|].
  apply list_elem_of_lookup in Hsel as [j Hj].
  exists (length p), (length p + S j)%nat. repeat split; [lia|..].
  - by rewrite list_lookup_middle.
  - rewrite lookup_app_r by lia.
    replace (length p + S j - length p)%nat with (S j) by lia. done.
Qed.

End Ties.

(** ** Track identity *)

Section Identity.

(** X4. Two records give tracks that are [==] exactly when they have the
    same name and the same artist ids, whatever the order and repetition of
    the artists, the track ids and the dates. *)
Lemma Track_eq_init (r1 r2 : Item) :
  Track_eq (Track_init r1) (Track_init r2) = true ↔
  item_track_name r1 = item_track_name r2 ∧
  ∀ a, a ∈ item_artists r1 ↔ a ∈ item_artists r2.
Proof.
  rewrite Track_eq_key. unfold Track_key, Track_init. simpl. split.
  - intros [= Hn Ha]. split; [done|]. intros a.
    rewrite <- !(elem_of_list_to_set (C:=gset string)). by rewrite Ha.
  - intros [Hn Ha]. f_equal; [done|]. apply set_eq. intros a.
    rewrite !elem_of_list_to_set. apply Ha.
Qed.

(** X5. [==] on tracks is an equivalence relation, and tracks that are [==]
    have the same hash. *)
Lemma Track_eq_equivalence :
  (∀ a, Track_eq a a = true) ∧
  (∀ a b, Track_eq a b = Track_eq b a) ∧
  (∀ a b c, Track_eq a b = true → Track_eq b c = true → Track_eq a c = true) ∧
  (∀ hash a b, Track_eq a b = true → Track_hash hash a = Track_hash hash b).
Proof.
  repeat split.
  - intros a. by apply Track_eq_key.
  - intros a b. apply eq_true_iff_eq. rewrite !Track_eq_key. split; congruence.
  - intros a b c. rewrite !Track_eq_key. congruence.
  - intros hash a b. rewrite Track_eq_key. unfold Track_hash. congruence.
Qed.

End Identity.

(** ** Writing the playlist *)

Section AddTracks.
Context {A : Type}.
Implicit Types (tracks existing : list A) (offset : nat).

Lemma add_playlist_tracks_loop_concat username playlist_id tracks offset :
  concat (call_tracks <$> add_playlist_tracks_loop username playlist_id tracks offset)
  = drop offset tracks.
Proof.
  funelim (add_playlist_tracks_loop username playlist_id tracks offset).
  - rewrite fmap_cons. simpl. rewrite H.
    rewrite <- (take_drop 100 (drop offset tracks)) at 2.
    by rewrite drop_drop.
  - simpl. rewrite drop_ge; [done|lia].
Qed.

Lemma add_playlist_tracks_loop_calls username playlist_id tracks offset :
  Forall (λ c, call_user c = username ∧ call_playlist_id c = playlist_id ∧
               call_tracks c = take 100 (drop (call_position c) tracks) ∧
               (0 < length (call_tracks c) ≤ 100)%nat)
    (add_playlist_tracks_loop username playlist_id tracks offset).
Proof.
  funelim (add_playlist_tracks_loop username playlist_id tracks offset).
  - constructor; [|apply H]. cbn [call_user call_playlist_id call_tracks call_position].
    repeat split; rewrite ?length_take, ?length_drop; lia.
  - constructor.
Qed.

Lemma add_playlist_tracks_loop_positions username playlist_id tracks offset :
  call_position <$> add_playlist_tracks_loop username playlist_id tracks offset
  = (λ i, offset + i * 100)%nat
      <$> seq 0 (length (add_playlist_tracks_loop username playlist_id tracks offset)).
Proof.
  funelim (add_playlist_tracks_loop username playlist_id tracks offset).
  - rewrite fmap_cons. cbn [length seq fmap list_fmap call_position].
    f_equal; [lia|]. rewrite H. rewrite <- seq_shift, <- list_fmap_compose.
    apply list_fmap_ext. intros _ i _. simpl. lia.
  - done.
Qed.

Lemma add_playlist_tracks_loop_length username playlist_id tracks offset :
  length (add_playlist_tracks_loop username playlist_id tracks offset)
  = ((length tracks - offset + 99) `div` 100)%nat.
Proof.
  funelim (add_playlist_tracks_loop username playlist_id tracks offset).
  - cbn [length]. rewrite H.
    destruct (decide (length tracks - offset < 100)%nat) as [Hlt|Hge].
    + replace (length tracks - (offset + 100))%nat with 0%nat by lia.
      assert ((0 + 99) `div` 100 = 0)%nat as -> by reflexivity.
      apply (Nat.div_unique _ _ _ (length tracks - offset - 1)); lia.
    + replace (length tracks - offset + 99)%nat
        with (length tracks - (offset + 100) + 99 + 1 * 100)%nat by lia.
      rewrite Nat.div_add by lia. lia.
  - replace (length tracks - offset)%nat with 0%nat by lia. done.
Qed.

(** X6. [add_playlist_tracks] sends the tracks in batches that, put end to
    end, are the list it was given: one call per started hundred, to the
    user and playlist given, at positions 0, 100, 200, ..., each call
    carrying the (at most 100, at least one) tracks that start at its
    position.  An empty list makes no call. *)
Theorem add_playlist_tracks_batches (username playlist_id : string) tracks :
  let calls := add_playlist_tracks username playlist_id tracks in
  concat (call_tracks <$> calls) = tracks ∧
  length calls = ((length tracks + 99) `div` 100)%nat ∧
  call_position <$> calls = (λ i, i * 100)%nat <$> seq 0 (length calls) ∧
  Forall (λ c, call_user c = username ∧ call_playlist_id c = playlist_id ∧
               call_tracks c = take 100 (drop (call_position c) tracks) ∧
               (0 < length (call_tracks c) ≤ 100)%nat)
    calls.
Proof.
  unfold add_playlist_tracks. cbv zeta. repeat split.
  - by rewrite add_playlist_tracks_loop_concat.
  - rewrite add_playlist_tracks_loop_length. f_equal. lia.
  - by rewrite add_playlist_tracks_loop_positions.
  - apply add_playlist_tracks_loop_calls.
Qed.

Lemma add_playlist_tracks_loop_replay username playlist_id tracks existing offset :
  foldl user_playlist_add_tracks (take offset tracks ++ existing)
    (add_playlist_tracks_loop username playlist_id tracks offset)
  = tracks ++ existing.
Proof.
  funelim (add_playlist_tracks_loop username playlist_id tracks offset).
  - cbn [foldl]. rewrite <- H. f_equal.
    unfold user_playlist_add_tracks. cbn [call_position call_tracks].
    assert (length (take offset tracks) = offset) as Hlen
      by (rewrite length_take; lia).
    rewrite take_app_length' by done. rewrite drop_app_length' by done.
    by rewrite app_assoc, take_take_drop.
  - simpl. rewrite take_ge; [done|lia].
Qed.

(** X7. Replaying the calls of [add_playlist_tracks] on a playlist, each
    batch inserted at its position, puts the tracks, in their order, in
    front of what the playlist held; on the empty playlist
    [create_scoutlist] makes, the playlist ends up holding exactly the
    tracks. *)
Theorem add_playlist_tracks_result (username playlist_id : string)
    tracks existing :
  foldl user_playlist_add_tracks existing
    (add_playlist_tracks username playlist_id tracks)
  = tracks ++ existing.
Proof. apply (add_playlist_tracks_loop_replay _ _ tracks existing 0). Qed.

End AddTracks.

(** ** Listing the playlists *)

Section Inspect.

Lemma inspect_playlists_loop_drop playlists offset :
  inspect_playlists_loop playlists offset
  = (PlaylistLine <$> drop offset playlists)
      ++ [TotalLine (length playlists)].
Proof.
  funelim (inspect_playlists_loop playlists offset). simpl in *.
  destruct (decide (length playlists < offset + 50)%nat) as [Hlt|Hge].
  - rewrite take_ge; [done|]. rewrite length_drop. lia.
  - rewrite H by done. rewrite app_assoc, <- fmap_app.
    by rewrite <- drop_drop, take_drop.
Qed.

(** X8. [inspect_playlists] prints one line for each of the user's
    playlists, each once and in the order of the listing, whatever the
    number of pages, and then the line with their number. *)
Theorem inspect_playlists_lines playlists :
  inspect_playlists playlists
  = (PlaylistLine <$> playlists) ++ [TotalLine (length playlists)].
Proof. unfold inspect_playlists. by rewrite inspect_playlists_loop_drop. Qed.

End Inspect.

(** ** The requests of the generator *)

Section Requests.
Variable parse : string → option Z.

Lemma yield_items_failure_None_2 {T} (ctor : Item → result T) tid its :
  Forall (λ item, ∃ t, ctor item = Ok t) its →
  failure (yield_items ctor tid its) = None.
Proof.
  induction 1 as [|item its [t Ht] _ IH]; simpl; [done|].
  rewrite Ht. by destruct (tid t).
Qed.

Lemma tracks_iterator_trace_stream {T} (ctor : Item → result T) tid
    sp_sess playlist offset :
  (tracks_iterator_trace ctor tid sp_sess playlist offset).1
  = tracks_iterator_loop ctor tid sp_sess playlist offset.
Proof.
  rewrite tracks_iterator_loop_drop. unfold contents.
  funelim (tracks_iterator_trace ctor tid sp_sess playlist offset).
  simpl in *.
  set (c := sp_sess (owner_id playlist) (playlist_id playlist)) in *.
  transitivity (yield_items ctor tid
                  (take limit (drop offset c) ++ drop limit (drop offset c)));
    [|by rewrite take_drop].
  rewrite yield_items_app.
  destruct (failure (yield_items ctor tid (take limit (drop offset c))))
    as [e|] eqn:Hf.
  { unfold stream_app. by rewrite Hf. }
  destruct (decide (length c < offset + limit)%nat) as [Hlt|Hge]; simpl.
  - rewrite (drop_ge (drop offset c) limit); [|rewrite length_drop; lia].
    unfold stream_app. rewrite Hf. simpl. rewrite app_nil_r.
    by destruct (yield_items ctor tid (take limit (drop offset c)));
      simpl in *; subst.
  - rewrite H by done. by rewrite drop_drop.
Qed.

Lemma tracks_iterator_trace_requests {T} (ctor : Item → result T) tid
    sp_sess playlist (k : nat) :
  Forall (λ item, ∃ t, ctor item = Ok t) (contents sp_sess playlist) →
  (k ≤ length (contents sp_sess playlist) `div` 100)%nat →
  (tracks_iterator_trace ctor tid sp_sess playlist (k * 100)).2
  = (λ i, i * 100)%nat
      <$> seq k (length (contents sp_sess playlist) `div` 100 + 1 - k).
Proof.
  intros Hok. unfold contents in *.
  set (c := sp_sess (owner_id playlist) (playlist_id playlist)) in *.
  set (n := (length c `div` 100)%nat).
  assert (n * 100 ≤ length c < n * 100 + 100)%nat as Hn.
  { pose proof (Nat.div_mod_eq (length c) 100).
    pose proof (Nat.mod_upper_bound (length c) 100). unfold n. lia. }
  assert (∀ o, failure (yield_items ctor tid (take limit (drop o c))) = None)
    as Hpage.
  { intros o. by apply yield_items_failure_None_2, Forall_take, Forall_drop. }
  remember (n - k)%nat as m eqn:Hm. revert k Hm.
  induction m as [|m IH]; intros k Hm Hk;
    rewrite tracks_iterator_trace_equation_1; cbn zeta;
    unfold user_playlist_tracks; cbn [items total]; fold c;
    rewrite Hpage; unfold limit.
  - rewrite decide_True by lia.
    replace (n + 1 - k)%nat with 1%nat by lia. done.
  - rewrite decide_False by lia.
    replace (n + 1 - k)%nat with (S (n + 1 - S k))%nat by lia.
    cbn [seq fmap list_fmap snd]. f_equal.
    replace (k * 100 + 100)%nat with (S k * 100)%nat by lia.
    apply IH; lia.
Qed.

(** X9. Consumed to its end, [tracks_iterator] asks for the pages at offsets
    0, 100, 200, ... up to the largest multiple of 100 that does not exceed
    the number of records: for a playlist of [n] records that is
    [n / 100 + 1] requests, the last of them for an empty page when [n] is
    a multiple of 100.  It holds without [added_at], and with it when every
    record can be built. *)
Theorem tracks_iterator_requests sp_sess playlist :
  let plain :=
    tracks_iterator_trace (λ item, Ok (Track_init item)) track_id
      sp_sess playlist 0 in
  let dated :=
    tracks_iterator_trace (TrackAddedAt_init parse)
      (λ t, track_id (as_track t)) sp_sess playlist 0 in
  let offsets :=
    (λ i, i * 100)%nat
      <$> seq 0 (length (contents sp_sess playlist) `div` 100 + 1) in
  plain.1 = tracks_iterator parse sp_sess playlist false ∧
  dated.1 = tracks_iterator parse sp_sess playlist true ∧
  plain.2 = offsets ∧
  (Forall (λ item, ∃ t, TrackAddedAt_init parse item = Ok t)
     (contents sp_sess playlist) → dated.2 = offsets).
Proof.
  cbv zeta. split; [apply tracks_iterator_trace_stream|].
  split; [apply tracks_iterator_trace_stream|].
  split; [|intros Hok];
    rewrite (tracks_iterator_trace_requests _ _ sp_sess playlist 0);
    rewrite ?Nat.sub_0_r; try done; try lia.
  apply Forall_forall. intros item _. by eexists.
Qed.

End Requests.

(** ** More on the two aggregations *)

Section MoreAggregation.
Variable parse : string → option Z.
Implicit Types (s : State) (t x : TrackAddedAt) (K : Z) (k : TrackKey).

Lemma playlist_keys_elem sp_sess pl k :
  k ∈ playlist_keys sp_sess pl ↔
  ∃ item, item ∈ contents sp_sess pl ∧ is_Some (item_track_id item) ∧
          Track_key (Track_init item) = k.
Proof.
  unfold playlist_keys. rewrite elem_of_list_to_set, list_elem_of_fmap.
  split.
  - intros (t & -> & [Hid (item & -> & Hitem)%list_elem_of_fmap]%list_elem_of_filter).
    by exists item.
  - intros (item & Hitem & Hid & <-). exists (Track_init item). split; [done|].
    apply list_elem_of_filter. split; [done|]. by apply list_elem_of_fmap_2.
Qed.

Lemma excluded_keys_elem sp_sess (pls : list Playlist) k :
  k ∈ ⋃ (playlist_keys sp_sess <$> pls) ↔
  ∃ pl item, pl ∈ pls ∧ item ∈ contents sp_sess pl ∧
             is_Some (item_track_id item) ∧ Track_key (Track_init item) = k.
Proof.
  rewrite elem_of_union_list. split.
  - intros (X & (pl & -> & Hpl)%list_elem_of_fmap & (item & ?)%playlist_keys_elem).
    by exists pl, item.
  - intros (pl & item & Hpl & Hitem). exists (playlist_keys sp_sess pl).
    split; [by apply list_elem_of_fmap_2|]. apply playlist_keys_elem. by exists item.
Qed.

(** X10. [aggregate_excluded_tracks] never raises, whatever the records hold
    as [added_at]; the set it returns holds a key exactly when a record of
    one of the playlists has a track id and that key. *)
Theorem aggregate_excluded_tracks_keys sp_sess exclude_playlists :
  ∃ keys, aggregate_excluded_tracks parse sp_sess exclude_playlists = Ok keys ∧
    ∀ k, k ∈ keys ↔
      ∃ pl item, pl ∈ exclude_playlists ∧ item ∈ contents sp_sess pl ∧
                 is_Some (item_track_id item) ∧
                 Track_key (Track_init item) = k.
Proof.
  eexists. split; [apply aggregate_excluded_tracks_eq|].
  intros k. apply excluded_keys_elem.
Qed.

(** X11. The two aggregations in a row: a track selected by
    [aggregate_source_tracks], run with the set
    [aggregate_excluded_tracks] returned, never has the name and artist ids
    of a record with a track id of an exclude playlist. *)
Theorem excluded_then_source sp_sess exclude_playlists source_playlists
    output_len keys s :
  aggregate_excluded_tracks parse sp_sess exclude_playlists = Ok keys →
  aggregate_source_state parse sp_sess source_playlists keys output_len
    = Ok s →
  ∀ x pl item, x ∈ included_tracks s →
    pl ∈ exclude_playlists → item ∈ contents sp_sess pl →
    is_Some (item_track_id item) →
    key x ≠ Track_key (Track_init item).
Proof.
  rewrite aggregate_excluded_tracks_eq. intros [= <-] Hs x pl item Hx Hpl Hitem Hid Hk.
  apply aggregate_source_state_Inv in Hs.
  apply (inv_fresh _ _ _ Hs x Hx). apply excluded_keys_elem.
  by exists pl, item.
Qed.

Lemma yield_items_elem {T} (ctor : Item → result T) tid its (v : T) :
  v ∈ yielded (yield_items ctor tid its) →
  ∃ item, item ∈ its ∧ ctor item = Ok v ∧ is_Some (tid v).
Proof.
  induction its as [|item its IH]; simpl; [by intros ?%elem_of_nil|].
  destruct (ctor item) as [v'|e] eqn:Hc; [|by intros ?%elem_of_nil].
  assert (v ∈ yielded (yield_items ctor tid its) →
          ∃ item0, item0 ∈ item :: its ∧ ctor item0 = Ok v ∧ is_Some (tid v))
    as Hrest.
  { intros (item' & ? & ?)%IH. exists item'. split; [by right | done]. }
  destruct (tid v') eqn:Hv; [|done]. simpl.
  intros [->|?]%elem_of_cons; [|by auto].
  exists item. split; [by left|]. split; [done|]. by rewrite Hv.
Qed.

Lemma yield_items_elem_2 {T} (ctor : Item → result T) tid its item (v : T) :
  failure (yield_items ctor tid its) = None →
  item ∈ its → ctor item = Ok v → is_Some (tid v) →
  v ∈ yielded (yield_items ctor tid its).
Proof.
  induction its as [|item' its IH]; simpl; [by intros _ ?%elem_of_nil|].
  destruct (ctor item') as [v'|e] eqn:Hc; [|done].
  intros Hf [->|Hin]%elem_of_cons Hv Hid.
  - rewrite Hc in Hv. injection Hv as ->. destruct Hid as [i Hi].
    rewrite Hi. simpl. by left.
  - assert (failure (yield_items ctor tid its) = None) as Hf'
      by (by destruct (tid v')).
    specialize (IH Hf' Hin Hv Hid).
    destruct (tid v'); [simpl; by right | done].
Qed.

Lemma source_stream_failure_None_2 sp_sess pls :
  (∀ pl, pl ∈ pls → failure (tracks_iterator parse sp_sess pl true) = None) →
  failure (source_stream parse sp_sess pls) = None.
Proof.
  induction pls as [|pl pls IH]; intros Hall; [done|].
  rewrite source_stream_cons. apply stream_app_failure_None. split.
  - apply Hall. by left.
  - apply IH. intros pl' Hpl'. apply Hall. by right.
Qed.

Lemma stream_app_yielded_None {A} (g1 g2 : Stream A) :
  failure g1 = None →
  yielded (stream_app g1 g2) = yielded g1 ++ yielded g2.
Proof. intros Hf. unfold stream_app. by rewrite Hf. Qed.

Lemma source_stream_concat sp_sess pls :
  failure (source_stream parse sp_sess pls) = None →
  yielded (source_stream parse sp_sess pls)
  = pls ≫= λ pl, yielded (tracks_iterator parse sp_sess pl true).
Proof.
  induction pls as [|pl pls IH]; [done|].
  rewrite source_stream_cons. intros Hf.
  apply stream_app_failure_None in Hf as Hf'. destruct Hf' as [Hf1 Hf2].
  rewrite bind_cons. rewrite <- IH by done.
  by apply stream_app_yielded_None.
Qed.

Lemma source_stream_from_items sp_sess pls t :
  t ∈ yielded (source_stream parse sp_sess pls) →
  ∃ pl item, pl ∈ pls ∧ item ∈ contents sp_sess pl ∧
             is_Some (item_track_id item) ∧
             TrackAddedAt_init parse item = Ok t.
Proof.
  intros (pl & Hpl & Ht)%source_stream_yielded.
  rewrite tracks_iterator_true in Ht.
  apply yield_items_elem in Ht as (item & Hitem & Hc & Hid).
  exists pl, item. repeat split; [done..| |done].
  by rewrite <- (TrackAddedAt_init_track_id parse item t Hc).
Qed.

Lemma source_stream_to_items sp_sess pls pl item t :
  failure (source_stream parse sp_sess pls) = None →
  pl ∈ pls → item ∈ contents sp_sess pl →
  TrackAddedAt_init parse item = Ok t → is_Some (item_track_id item) →
  t ∈ yielded (source_stream parse sp_sess pls).
Proof.
  intros Hf Hpl Hitem Hc Hid. rewrite source_stream_concat by done.
  apply list_elem_of_bind. exists pl. split; [|done].
  rewrite tracks_iterator_true. eapply yield_items_elem_2; [|done..|].
  - rewrite <- tracks_iterator_true. by eapply source_stream_failure_None.
  - by rewrite (TrackAddedAt_init_track_id parse item t Hc).
Qed.

(** X12. [aggregate_source_tracks] returns a list exactly when every record
    of the source playlists can be built (its [added_at] is there and
    parses) and either the capacity is positive or no record has a track
    id; otherwise it raises. *)
Theorem aggregate_source_tracks_returns sp_sess source_playlists excluded
    output_len :
  (∃ ids, aggregate_source_tracks parse sp_sess source_playlists excluded
            output_len = Ok ids) ↔
  (∀ pl item, pl ∈ source_playlists → item ∈ contents sp_sess pl →
     ∃ t, TrackAddedAt_init parse item = Ok t) ∧
  (0 < output_len ∨
   ∀ pl item, pl ∈ source_playlists → item ∈ contents sp_sess pl →
     item_track_id item = None).
Proof.
  split.
  - intros (ids & (s & [Hrun Hf]%aggregate_source_state_Ok & _)%aggregate_source_tracks_Ok).
    assert (∀ pl item, pl ∈ source_playlists → item ∈ contents sp_sess pl →
              ∃ t, TrackAddedAt_init parse item = Ok t) as Hbuilt.
    { intros pl item Hpl Hitem.
      eapply source_stream_failure_None in Hpl as Hfpl; [|exact Hf].
      rewrite tracks_iterator_true in Hfpl.
      apply yield_items_failure_None in Hfpl. rewrite Forall_forall in Hfpl.
      by apply Hfpl. }
    split; [done|].
    destruct (foldM_body_returns _ _ _ _ Hrun) as [Hnil|?]; [right | by left].
    intros pl item Hpl Hitem. destruct (Hbuilt pl item Hpl Hitem) as [t Ht].
    destruct (item_track_id item) as [i|] eqn:Hid; [exfalso | done].
    assert (t ∈ yielded (source_stream parse sp_sess source_playlists)) as Hin.
    { eapply source_stream_to_items; [done..|]. by rewrite Hid. }
    rewrite Hnil in Hin. by apply elem_of_nil in Hin.
  - intros [Hbuilt Hcap].
    assert (failure (source_stream parse sp_sess source_playlists) = None) as Hf.
    { apply source_stream_failure_None_2. intros pl Hpl.
      rewrite tracks_iterator_true. apply yield_items_failure_None_2.
      apply Forall_forall. intros item Hitem. by apply (Hbuilt pl). }
    assert (∃ s, foldM (aggregate_body output_len) (initial excluded)
                   (yielded (source_stream parse sp_sess source_playlists))
                 = Ok s) as [s Hs].
    { destruct Hcap as [HK|Hnull]; [by apply foldM_body_pos|].
      destruct (yielded (source_stream parse sp_sess source_playlists))
        as [|t l] eqn:Hl; [by eexists|].
      assert (t ∈ yielded (source_stream parse sp_sess source_playlists)) as Ht
        by (rewrite Hl; by left).
      apply source_stream_from_items in Ht as (pl & item & Hpl & Hitem & Hid & _).
      rewrite (Hnull pl item Hpl Hitem) in Hid. by destruct Hid. }
    exists (track_ids (included_tracks s)).
    apply aggregate_source_tracks_Ok. exists s. split; [|done].
    by apply aggregate_source_state_Ok.
Qed.

(** X13. What a run leaves behind and where the selection comes from: on
    return the set passed in has only grown, by keys of records of the
    source playlists that have a track id; every selected track was built
    from such a record, and its key is in the set. *)
Theorem aggregate_source_state_provenance sp_sess source_playlists excluded
    output_len s :
  aggregate_source_state parse sp_sess source_playlists excluded output_len
    = Ok s →
  excluded ⊆ excluded_tracks s ∧
  (∀ k, k ∈ excluded_tracks s → k ∈ excluded ∨
     ∃ pl item t, pl ∈ source_playlists ∧ item ∈ contents sp_sess pl ∧
       is_Some (item_track_id item) ∧
       TrackAddedAt_init parse item = Ok t ∧ key t = k) ∧
  (∀ x, x ∈ included_tracks s → key x ∈ excluded_tracks s ∧
     ∃ pl item, pl ∈ source_playlists ∧ item ∈ contents sp_sess pl ∧
       is_Some (item_track_id item) ∧
       TrackAddedAt_init parse item = Ok x).
Proof.
  intros Hs. pose proof (aggregate_source_state_Inv _ _ _ _ _ _ Hs) as HI.
  apply aggregate_source_state_Ok in Hs as [Hrun _].
  destruct (foldM_body_excluded _ _ _ _ Hrun) as [Hmono Hbound].
  split; [done|]. split.
  - intros k [?|Hk]%Hbound%elem_of_union; [by left|]. right.
    apply elem_of_list_to_set, list_elem_of_fmap in Hk as (t & -> & Ht).
    apply source_stream_from_items in Ht as (pl & item & ? & ? & ? & ?).
    by exists pl, item, t.
  - intros x Hx. split; [by apply (inv_excl _ _ _ HI)|].
    eapply foldM_body_elem in Hx as [Hx|Hx]; [| |exact Hrun].
    + by apply elem_of_nil in Hx.
    + by apply source_stream_from_items.
Qed.

End MoreAggregation.

(** ** The most recent tracks *)

Section MostRecent.
Variable parse : string → option Z.
Implicit Types (s : State) (t x : TrackAddedAt) (K : Z)
  (l : list TrackAddedAt).

Lemma sorted_reverse_sorted l : StronglySorted desc (sorted_reverse l).
Proof.
  induction l as [|t l IH] using rev_ind; [constructor|].
  rewrite sorted_reverse_snoc. by apply insert_last_sorted.
Qed.

Lemma take_insert_last (n : nat) t l :
  take n (insert_last t (take n l)) = take n (insert_last t l).
Proof.
  revert n. induction l as [|y l IH]; intros [|n]; try done.
  cbn [take insert_last]. destruct (TrackAddedAt_lt y t).
  - cbn [take]. f_equal. destruct n as [|n]; [done|].
    cbn [take]. f_equal. rewrite take_take. f_equal. lia.
  - cbn [take]. f_equal. apply IH.
Qed.

Lemma trim_take K l :
  0 ≤ K → (length l ≤ S (Z.to_nat K))%nat → trim K l = take (Z.to_nat K) l.
Proof.
  intros HK Hlen. destruct (trim_cases K l) as [[Hle ->]|[Hgt ->]].
  - rewrite take_ge; [done|lia].
  - rewrite removelast_firstn_len. f_equal. lia.
Qed.

Lemma foldM_body_topk K seed l :
  0 < K → NoDup (key <$> l) → (∀ t, t ∈ l → key t ∉ seed) →
  ∃ s, foldM (aggregate_body K) (initial seed) l = Ok s ∧
       included_tracks s = take (Z.to_nat K) (sorted_reverse l).
Proof.
  intros HK. induction l as [|t l IH] using rev_ind; intros Hnodup Hseed.
  { exists (initial seed). split; [done|]. simpl. by rewrite take_nil. }
  rewrite fmap_app in Hnodup. apply NoDup_app in Hnodup as (Hnodup & Hfresh & _).
  destruct IH as (s & Hs & Hincl); [done|intros; apply Hseed; set_solver|].
  assert (Inv K seed s) as HI by (eapply foldM_body_Inv; [apply Inv_init|done]).
  assert (key t ∉ excluded_tracks s) as Ht.
  { intros [Hin|Hin]%(proj2 (foldM_body_excluded _ _ _ _ Hs))%elem_of_union.
    - apply (Hseed t); [set_solver|done].
    - apply elem_of_list_to_set in Hin. apply (Hfresh _ Hin). set_solver. }
  rewrite foldM_app, Hs. cbn [mbind result_bind foldM].
  rewrite sorted_reverse_snoc, <- take_insert_last, <- Hincl.
  pose proof (inv_length _ _ _ HI) as Hlen.
  destruct (aggregate_body_cases K s t)
    as [(_ & ? & _)|[(l0 & m & Hl0 & HKlen & Htm & ->)|(_ & ->)]]; [lia|..];
    cbn [mbind result_bind]; eexists; (split; [done|]).
  - rewrite insert_last_snoc.
    + rewrite take_app_length'; [done|lia].
    + pose proof (inv_sorted _ _ _ HI) as Hsorted.
      rewrite Hl0 in Hsorted |- *. apply Forall_app. split; [|by constructor].
      apply Forall_forall. intros y Hy.
      assert (desc y m) as Hd;
        [eapply StronglySorted_app_1_elem_of; [exact Hsorted|done|by left]|].
      unfold desc in Hd. lia.
  - unfold accept_state. rewrite bool_decide_eq_false_2 by done. simpl.
    rewrite sorted_reverse_snoc_sorted by apply HI.
    apply trim_take; [lia|].
    rewrite (Permutation_length (insert_last_perm t _)). simpl. lia.
Qed.

Lemma source_topk sp_sess pls excluded K :
  0 < K →
  failure (source_stream parse sp_sess pls) = None →
  NoDup (key <$> yielded (source_stream parse sp_sess pls)) →
  (∀ t, t ∈ yielded (source_stream parse sp_sess pls) → key t ∉ excluded) →
  aggregate_source_tracks parse sp_sess pls excluded K
  = Ok (track_ids
          (take (Z.to_nat K)
             (sorted_reverse (yielded (source_stream parse sp_sess pls))))).
Proof.
  intros HK Hf Hnodup Hseed.
  destruct (foldM_body_topk K excluded _ HK Hnodup Hseed) as (s & Hs & Hincl).
  apply aggregate_source_tracks_Ok. exists s. split; [|by rewrite Hincl].
  by apply aggregate_source_state_Ok.
Qed.

(** X14. When no record fails to build, the tracks yielded carry pairwise
    different keys, none of them excluded, and the capacity is positive,
    [aggregate_source_tracks] returns the ids of the first [output_len]
    tracks of the whole stream sorted most recent first (stably): the most
    recently added tracks, ties going to the tracks seen first. *)
Theorem aggregate_source_tracks_most_recent sp_sess source_playlists excluded
    output_len :
  0 < output_len →
  failure (source_stream parse sp_sess source_playlists) = None →
  NoDup (key <$> yielded (source_stream parse sp_sess source_playlists)) →
  (∀ t, t ∈ yielded (source_stream parse sp_sess source_playlists) →
        key t ∉ excluded) →
  aggregate_source_tracks parse sp_sess source_playlists excluded output_len
  = Ok (track_ids
          (take (Z.to_nat output_len)
             (sorted_reverse
                (yielded (source_stream parse sp_sess source_playlists))))).
Proof. apply source_topk. Qed.

(** X15. Under the same conditions, a smaller positive capacity gives the
    beginning of what a larger one gives. *)
Theorem aggregate_source_tracks_capacity_prefix sp_sess source_playlists
    excluded output_len output_len' :
  0 < output_len ≤ output_len' →
  failure (source_stream parse sp_sess source_playlists) = None →
  NoDup (key <$> yielded (source_stream parse sp_sess source_playlists)) →
  (∀ t, t ∈ yielded (source_stream parse sp_sess source_playlists) →
        key t ∉ excluded) →
  aggregate_source_tracks parse sp_sess source_playlists excluded output_len
  = take (Z.to_nat output_len)
      <$> aggregate_source_tracks parse sp_sess source_playlists excluded
            output_len'.
Proof.
  intros HK Hf Hnodup Hseed. rewrite !source_topk by (done || lia).
  cbn [fmap result_fmap]. f_equal. unfold track_ids.
  rewrite <- fmap_take, take_take. do 2 f_equal. lia.
Qed.

Lemma NoDup_fmap_inj_on {A B} (f : A → B) (xs : list A) (a b : A) :
  NoDup (f <$> xs) → a ∈ xs → b ∈ xs → f a = f b → a = b.
Proof.
  induction xs as [|z xs IH]; [by intros _ ?%elem_of_nil|].
  rewrite fmap_cons. intros [Hz Hl]%NoDup_cons.
  intros [->|Ha]%elem_of_cons [->|Hb]%elem_of_cons Hf; [done|..|by auto].
  - exfalso. apply Hz. rewrite Hf. by apply list_elem_of_fmap_2.
  - exfalso. apply Hz. rewrite <- Hf. by apply list_elem_of_fmap_2.
Qed.

Lemma sorted_reverse_Permutation l l' :
  l ≡ₚ l' → NoDup (added_at <$> l) → sorted_reverse l = sorted_reverse l'.
Proof.
  intros Hperm Hnodup.
  apply (StronglySorted_unique_strong desc);
    [|apply sorted_reverse_sorted..|by rewrite !sorted_reverse_perm].
  intros x y Hx Hy Hxy Hyx. rewrite sorted_reverse_perm in Hx, Hy.
  rewrite <- Hperm in Hy.
  apply (NoDup_fmap_inj_on added_at l); [done..|]. unfold desc in *. lia.
Qed.

(** X16. Under the conditions of X14 and when no two tracks yielded have the
    same [added_at], the order in which the source playlists are given does
    not change what [aggregate_source_tracks] returns. *)
Theorem aggregate_source_tracks_playlist_order sp_sess source_playlists
    source_playlists' excluded output_len :
  source_playlists ≡ₚ source_playlists' →
  0 < output_len →
  failure (source_stream parse sp_sess source_playlists) = None →
  NoDup (key <$> yielded (source_stream parse sp_sess source_playlists)) →
  NoDup (added_at <$> yielded (source_stream parse sp_sess source_playlists)) →
  (∀ t, t ∈ yielded (source_stream parse sp_sess source_playlists) →
        key t ∉ excluded) →
  aggregate_source_tracks parse sp_sess source_playlists' excluded output_len
  = aggregate_source_tracks parse sp_sess source_playlists excluded
      output_len.
Proof.
  intros Hperm HK Hf Hnodup Htimes Hseed.
  assert (failure (source_stream parse sp_sess source_playlists') = None)
    as Hf'.
  { apply source_stream_failure_None_2. intros pl Hpl.
    eapply source_stream_failure_None; [exact Hf|]. by rewrite Hperm. }
  assert (yielded (source_stream parse sp_sess source_playlists)
          ≡ₚ yielded (source_stream parse sp_sess source_playlists'))
    as Hyield.
  { rewrite !source_stream_concat by done. by rewrite Hperm. }
  rewrite !source_topk; try done.
  - by rewrite (sorted_reverse_Permutation _ _ Hyield).
  - by rewrite <- Hyield.
  - intros t Ht. apply Hseed. by rewrite Hyield.
Qed.

Lemma TrackAddedAt_init_key item t :
  TrackAddedAt_init parse item = Ok t → key t = Track_key (Track_init item).
Proof.
  unfold TrackAddedAt_init. destruct (item_added_at item) as [str|]; [|done].
  destruct (parse str); [|done]. by intros [= <-].
Qed.

(** X17. With a positive capacity, when every record of the source playlists
    can be built and every one with a track id has its name and artist ids
    in the exclusion set, [aggregate_source_tracks] returns the empty
    list. *)
Theorem aggregate_source_tracks_all_excluded sp_sess source_playlists
    excluded output_len :
  0 < output_len →
  (∀ pl item, pl ∈ source_playlists → item ∈ contents sp_sess pl →
     ∃ t, TrackAddedAt_init parse item = Ok t) →
  (∀ pl item, pl ∈ source_playlists → item ∈ contents sp_sess pl →
     is_Some (item_track_id item) →
     Track_key (Track_init item) ∈ excluded) →
  aggregate_source_tracks parse sp_sess source_playlists excluded output_len
  = Ok [].
Proof.
  intros HK Hbuilt Hexcl.
  apply aggregate_source_tracks_Ok. exists (initial excluded). split; [|done].
  apply aggregate_source_state_Ok. split.
  - apply all_excluded_skipped; [done|]. intros t Ht.
    apply source_stream_from_items in Ht as (pl & item & Hpl & Hitem & Hid & Hc).
    rewrite (TrackAddedAt_init_key _ _ Hc). by apply (Hexcl pl).
  - apply source_stream_failure_None_2. intros pl Hpl.
    rewrite tracks_iterator_true. apply yield_items_failure_None_2.
    apply Forall_forall. intros item Hitem. by apply (Hbuilt pl).
Qed.

End MostRecent.

(** ** The properties on the example data *)

Section OnExamples.
Local Open Scope string_scope.
Local Open Scope Z_scope.
Local Open Scope list_scope.

Lemma aggregate_source_tracks_unique_repeated_newer :
  ∃ s, aggregate_source_state example_parse example_session
         [example_playlist "repeated_newer"]
         {[ ("A", list_to_set ["a1"]) ]} 2 = Ok s ∧
       [Some "id2"] = track_ids (included_tracks s) ∧
       NoDup (key <$> included_tracks s) ∧
       ∀ x, x ∈ included_tracks s →
            key x ∉ ({[ ("A", list_to_set ["a1"]) ]} : gset TrackKey).
Proof.
  apply (aggregate_source_tracks_unique example_parse example_session
           [example_playlist "repeated_newer"]
           {[ ("A", list_to_set ["a1"]) ]} 2 [Some "id2"]).
  reflexivity.
Defined.

Lemma short_circuit_changes_result :
  aggregate_source_tracks example_parse example_session
    [example_playlist "repeated_newer"] ∅ 1 = Ok [Some "id3"] ∧
  aggregate_source_tracks_nocheck example_parse example_session
    [example_playlist "repeated_newer"] ∅ 1 = Ok [Some "id1"] ∧
  aggregate_source_tracks_nocheck example_parse example_session
    [example_playlist "repeated_newer"] ∅ 1
  ≠ aggregate_source_tracks example_parse example_session
      [example_playlist "repeated_newer"] ∅ 1.
Proof. repeat split; [reflexivity..|by_computation]. Qed.

Lemma short_circuit_removable_tie_two_tracks :
  aggregate_source_tracks_nocheck example_parse example_session
    [example_playlist "tie"; example_playlist "two_tracks"] ∅ 1
  = aggregate_source_tracks example_parse example_session
      [example_playlist "tie"; example_playlist "two_tracks"] ∅ 1.
Proof.
  apply (short_circuit_removable example_parse example_session
           [example_playlist "tie"; example_playlist "two_tracks"] ∅ 1);
    [lia|].
  assert (yielded (source_stream example_parse example_session
                     [example_playlist "tie"; example_playlist "two_tracks"])
          = [ example_track "id1" "A" "a1" 1578009600;
              example_track "id2" "B" "a2" 1578009600;
              example_track "id3" "C" "a3" 1578182400;
              example_track "id1" "A" "a1" 1578182400;
              example_track "id2" "B" "a2" 1578009600 ]) as -> by reflexivity.
  intros l1 t l2 s1 Heq Hrun Hsc Hnot t' Ht' Hk.
  destruct l1 as [|a1 l1]; simpl in Heq.
  { injection Heq as <- <-. injection Hrun as <-. discriminate Hsc. }
  injection Heq as <- Heq.
  destruct l1 as [|a2 l1]; simpl in Heq.
  { injection Heq as <- <-.
    apply elem_of_cons in Ht' as [->|Ht']; [exfalso; revert Hk; by_computation|].
    apply elem_of_cons in Ht' as [->|Ht']; [exfalso; revert Hk; by_computation|].
    apply elem_of_cons in Ht' as [->|Ht']; [simpl; lia|].
    by apply elem_of_nil in Ht'. }
  injection Heq as <- Heq.
  destruct l1 as [|a3 l1]; simpl in Heq.
  { injection Heq as <- <-.
    assert (included_tracks s1 = [example_track "id1" "A" "a1" 1578009600])
      as Hincl.
    { apply (f_equal (fmap included_tracks)) in Hrun.
      by injection Hrun as <-. }
    unfold short_circuit, last_item in Hsc. rewrite Hincl in Hsc.
    discriminate Hsc. }
  injection Heq as <- Heq.
  destruct l1 as [|a4 l1]; simpl in Heq.
  { injection Heq as <- <-. exfalso. apply Hnot.
    injection Hrun as <-. by_computation. }
  injection Heq as <- Heq.
  destruct l1 as [|a5 l1]; simpl in Heq.
  { injection Heq as <- <-. clear -Ht'. by apply elem_of_nil in Ht'. }
  injection Heq as <- Heq.
  clear -Heq. destruct l1; discriminate Heq.
Defined.

Lemma aggregate_source_tracks_descending_scenario_a :
  ∃ s, aggregate_source_state example_parse example_session
         [example_playlist "scenario_a"] ∅ 2 = Ok s ∧
       [Some "id2"; Some "id3"] = track_ids (included_tracks s) ∧
       ∀ i j x y, (i < j)%nat →
         included_tracks s !! i = Some x → included_tracks s !! j = Some y →
         added_at y ≤ added_at x.
Proof.
  apply (aggregate_source_tracks_descending example_parse example_session
           [example_playlist "scenario_a"] ∅ 2 [Some "id2"; Some "id3"]).
  reflexivity.
Defined.

Lemma reaggregation_reselects :
  ∃ s1, aggregate_source_state example_parse example_session
          [example_playlist "two_tracks"] ∅ 1 = Ok s1 ∧
        track_ids (included_tracks s1) = [Some "id1"] ∧
        aggregate_source_tracks example_parse example_session
          [example_playlist "two_tracks"]
          (∅ ∪ list_to_set (key <$> included_tracks s1)) 1
        = Ok [Some "id2"] ∧
        aggregate_source_tracks example_parse example_session
          [example_playlist "two_tracks"]
          (∅ ∪ list_to_set (key <$> included_tracks s1)) 1
        ≠ Ok [].
Proof.
  eexists. split; [reflexivity|]. split; [reflexivity|].
  split; [reflexivity|]. intros Hempty.
  assert (@Ok (list (option string)) [] = Ok [Some "id2"]) as Habs
    by (rewrite <- Hempty; reflexivity).
  discriminate Habs.
Qed.

Lemma reaggregation_scenario_a :
  ∃ s1, aggregate_source_state example_parse example_session
          [example_playlist "scenario_a"] ∅ 5 = Ok s1 ∧
  ∃ s2,
    aggregate_source_state example_parse example_session
      [example_playlist "scenario_a"]
      (∅ ∪ list_to_set (key <$> included_tracks s1)) 5 = Ok s2 ∧
    aggregate_source_tracks example_parse example_session
      [example_playlist "scenario_a"]
      (∅ ∪ list_to_set (key <$> included_tracks s1)) 5
      = Ok (track_ids (included_tracks s2)) ∧
    (∀ x, x ∈ included_tracks s2 →
       (key x ∉ (∅ : gset TrackKey)) ∧
       ∀ y, y ∈ included_tracks s1 → key x ≠ key y) ∧
    (Z.of_nat (length (included_tracks s1)) < 5 → included_tracks s2 = []).
Proof.
  eexists. split; [reflexivity|].
  exact (reaggregation example_parse example_session
           [example_playlist "scenario_a"] ∅ 5 _ eq_refl).
Defined.

Lemma tie_later_record_kept :
  ∃ s, yielded (source_stream example_parse example_session
                  [example_playlist "tie_after_repeat"])
       = [example_track "id1" "X" "a1" 1577836800]
         ++ example_track "id2" "X" "a1" 1578182400
         :: [example_track "id3" "Y" "a2" 1578182400] ∧
       aggregate_source_state example_parse example_session
         [example_playlist "tie_after_repeat"] ∅ 1 = Ok s ∧
       key (example_track "id3" "Y" "a2" 1578182400)
         ≠ key (example_track "id2" "X" "a1" 1578182400) ∧
       added_at (example_track "id3" "Y" "a2" 1578182400)
         = added_at (example_track "id2" "X" "a1" 1578182400) ∧
       included_tracks s = [example_track "id3" "Y" "a2" 1578182400] ∧
       example_track "id2" "X" "a1" 1578182400 ∉ included_tracks s.
Proof.
  eexists. split; [reflexivity|]. split; [reflexivity|].
  split; [by_computation|]. split; [reflexivity|]. split; [reflexivity|].
  by_computation.
Qed.

Lemma tie_first_seen_tie :
  ∃ s, aggregate_source_state example_parse example_session
         [example_playlist "tie"] ∅ 3 = Ok s ∧
       track_ids (included_tracks s) = [Some "id3"; Some "id1"; Some "id2"] ∧
       ∃ i j, (i < j)%nat ∧
         included_tracks s !! i = Some (example_track "id1" "A" "a1" 1578009600) ∧
         included_tracks s !! j = Some (example_track "id2" "B" "a2" 1578009600).
Proof.
  eexists. split; [reflexivity|]. split; [reflexivity|].
  refine (proj2 (tie_first_seen example_parse example_session
                   [example_playlist "tie"] ∅ 3
                   [] (example_track "id1" "A" "a1" 1578009600)
                   [example_track "id2" "B" "a2" 1578009600;
                    example_track "id3" "C" "a3" 1578182400]
                   (example_track "id2" "B" "a2" 1578009600) _)
            _ _ _ _ _ _ _ _ _).
  - reflexivity.
  - reflexivity.
  - apply not_elem_of_empty.
  - intros x Hx. by apply elem_of_nil in Hx.
  - by_computation.
  - apply not_elem_of_nil.
  - by_computation.
  - reflexivity.
  - by_computation.
Defined.

Lemma null_id_record_raises :
  aggregate_source_tracks example_parse example_session
    [example_playlist "with_bad_local_file"] ∅ 1 = Raise ParserError ∧
  aggregate_source_tracks example_parse (without_null_ids example_session)
    [example_playlist "with_bad_local_file"] ∅ 1 = Ok [].
Proof. split; reflexivity. Qed.

Lemma null_id_records_dropped_with_local_file :
  aggregate_source_tracks example_parse example_session
    [example_playlist "with_local_file"] ∅ 1 = Ok [Some "id1"] ∧
  aggregate_source_tracks example_parse example_session
    [example_playlist "with_local_file"] ∅ 1
  = aggregate_source_tracks example_parse (without_null_ids example_session)
      [example_playlist "with_local_file"] ∅ 1.
Proof.
  split; [reflexivity|].
  refine (proj1 (proj2 (proj2 (proj2
            (null_id_records_dropped example_parse example_session []
               [example_playlist "with_local_file"] ∅ 1)))) _).
  intros pl item ->%list_elem_of_singleton Hitem Hnull.
  change (item ∈ with_local_file) in Hitem. unfold with_local_file in Hitem.
  apply elem_of_cons in Hitem as [->|Hitem]; [done|].
  apply list_elem_of_singleton in Hitem as ->.
  eexists. reflexivity.
Defined.

Lemma aggregate_source_tracks_parse_error_with_bad_date :
  ∃ e,
    aggregate_source_tracks example_parse example_session
      [example_playlist "with_bad_date"] ∅ 1 = Raise e ∧
    (0 < 1 →
     ∃ pl' item', pl' ∈ [example_playlist "with_bad_date"] ∧
       item' ∈ contents example_session pl' ∧
       TrackAddedAt_init example_parse item' = Raise e).
Proof.
  apply (aggregate_source_tracks_parse_error example_parse example_session
           [example_playlist "with_bad_date"] ∅ 1
           (example_playlist "with_bad_date")
           (example_record "id2" "T2" "a2" "unknown") "unknown").
  - by_computation.
  - by_computation.
  - reflexivity.
  - reflexivity.
Defined.

Lemma aggregate_excluded_tracks_permutation_two :
  aggregate_excluded_tracks example_parse example_session
    [example_playlist "scenario_a"; example_playlist "two_tracks"]
  = aggregate_excluded_tracks example_parse example_session
      [example_playlist "two_tracks"; example_playlist "scenario_a"].
Proof.
  apply (aggregate_excluded_tracks_permutation example_parse example_session).
  apply perm_swap.
Defined.

Lemma first_occurrence_wins_repeated_newer :
  ∃ s, aggregate_source_state example_parse example_session
         [example_playlist "repeated_newer"] ∅ 2 = Ok s ∧
       track_ids (included_tracks s) = [Some "id1"; Some "id2"] ∧
       ∀ x, x ∈ included_tracks s →
            key x = key (example_track "id2" "B" "a2" 1577836800) →
            x = example_track "id2" "B" "a2" 1577836800.
Proof.
  eexists. split; [reflexivity|]. split; [reflexivity|].
  refine (proj2 (first_occurrence_wins example_parse example_session
                   [example_playlist "repeated_newer"] ∅ 2
                   [example_track "id1" "A" "a1" 1578009600]
                   (example_track "id2" "B" "a2" 1577836800)
                   [example_track "id3" "B" "a2" 1578182400] _ _ _ _ _ _)).
  - reflexivity.
  - reflexivity.
  - reflexivity.
  - split; [reflexivity | by_computation].
Defined.

Lemma aggregate_source_tracks_length_scenario_a :
  Z.of_nat (length [Some "id2"; Some "id3"]) ≤ 2.
Proof.
  apply (aggregate_source_tracks_length example_parse example_session
           [example_playlist "scenario_a"] ∅ 2); [lia | reflexivity].
Defined.

Lemma aggregate_source_tracks_nonpos_scenario_a :
  aggregate_source_tracks example_parse example_session
    [example_playlist "scenario_a"] ∅ (-1) = Raise IndexError.
Proof.
  apply (aggregate_source_tracks_nonpos example_parse example_session
           [example_playlist "scenario_a"] ∅ (-1)); [lia|].
  by_computation.
Defined.

Lemma excluded_then_source_tie :
  ∃ keys s,
    aggregate_excluded_tracks example_parse example_session
      [example_playlist "two_tracks"] = Ok keys ∧
    aggregate_source_state example_parse example_session
      [example_playlist "tie"] keys 2 = Ok s ∧
    track_ids (included_tracks s) = [Some "id3"] ∧
    ∀ x pl item, x ∈ included_tracks s →
      pl ∈ [example_playlist "two_tracks"] →
      item ∈ contents example_session pl →
      is_Some (item_track_id item) →
      key x ≠ Track_key (Track_init item).
Proof.
  eexists. eexists. split; [reflexivity|]. split; [reflexivity|].
  split; [reflexivity|].
  eapply (excluded_then_source example_parse example_session
            [example_playlist "two_tracks"] [example_playlist "tie"] 2);
    reflexivity.
Defined.

Lemma aggregate_source_state_provenance_scenario_a :
  ∃ s,
    aggregate_source_state example_parse example_session
      [example_playlist "scenario_a"] ∅ 2 = Ok s ∧
    (∅ : gset TrackKey) ⊆ excluded_tracks s ∧
    (∀ k, k ∈ excluded_tracks s → k ∈ (∅ : gset TrackKey) ∨
       ∃ pl item t, pl ∈ [example_playlist "scenario_a"] ∧
         item ∈ contents example_session pl ∧
         is_Some (item_track_id item) ∧
         TrackAddedAt_init example_parse item = Ok t ∧ key t = k) ∧
    (∀ x, x ∈ included_tracks s → key x ∈ excluded_tracks s ∧
       ∃ pl item, pl ∈ [example_playlist "scenario_a"] ∧
         item ∈ contents example_session pl ∧
         is_Some (item_track_id item) ∧
         TrackAddedAt_init example_parse item = Ok x).
Proof.
  eexists. split; [reflexivity|].
  apply (aggregate_source_state_provenance example_parse example_session
           [example_playlist "scenario_a"] ∅ 2).
  reflexivity.
Defined.

Lemma aggregate_source_tracks_most_recent_scenario_a :
  aggregate_source_tracks example_parse example_session
    [example_playlist "scenario_a"] ∅ 2
  = Ok (track_ids
          (take (Z.to_nat 2)
             (sorted_reverse
                (yielded (source_stream example_parse example_session
                            [example_playlist "scenario_a"]))))).
Proof.
  apply (aggregate_source_tracks_most_recent example_parse example_session
           [example_playlist "scenario_a"] ∅ 2).
  - lia.
  - reflexivity.
  - by_computation.
  - intros t _. apply not_elem_of_empty.
Defined.

Lemma aggregate_source_tracks_capacity_prefix_scenario_a :
  aggregate_source_tracks example_parse example_session
    [example_playlist "scenario_a"] ∅ 1
  = take (Z.to_nat 1)
      <$> aggregate_source_tracks example_parse example_session
            [example_playlist "scenario_a"] ∅ 2.
Proof.
  apply (aggregate_source_tracks_capacity_prefix example_parse example_session
           [example_playlist "scenario_a"] ∅ 1 2).
  - lia.
  - reflexivity.
  - by_computation.
  - intros t _. apply not_elem_of_empty.
Defined.

Lemma aggregate_source_tracks_playlist_order_two :
  aggregate_source_tracks example_parse example_session
    [example_playlist "with_local_file"; example_playlist "two_tracks"] ∅ 2
  = aggregate_source_tracks example_parse example_session
      [example_playlist "two_tracks"; example_playlist "with_local_file"] ∅ 2.
Proof.
  apply (aggregate_source_tracks_playlist_order example_parse example_session
           [example_playlist "two_tracks"; example_playlist "with_local_file"]
           [example_playlist "with_local_file"; example_playlist "two_tracks"]
           ∅ 2).
  - apply perm_swap.
  - lia.
  - reflexivity.
  - by_computation.
  - by_computation.
  - intros t _. apply not_elem_of_empty.
Defined.

Lemma aggregate_source_tracks_all_excluded_two_tracks :
  aggregate_source_tracks example_parse example_session
    [example_playlist "two_tracks"]
    (list_to_set [("A", list_to_set ["a1"]); ("B", list_to_set ["a2"])]) 1
  = Ok [].
Proof.
  apply (aggregate_source_tracks_all_excluded example_parse example_session
           [example_playlist "two_tracks"]
           (list_to_set [("A", list_to_set ["a1"]); ("B", list_to_set ["a2"])])
           1).
  - lia.
  - intros pl item ->%list_elem_of_singleton Hitem.
    change (item ∈ two_tracks) in Hitem. unfold two_tracks in Hitem.
    apply elem_of_cons in Hitem as [->|Hitem];
      [|apply list_elem_of_singleton in Hitem as ->]; eexists; reflexivity.
  - intros pl item ->%list_elem_of_singleton Hitem _.
    change (item ∈ two_tracks) in Hitem. unfold two_tracks in Hitem.
    apply elem_of_cons in Hitem as [->|Hitem];
      [|apply list_elem_of_singleton in Hitem as ->]; by_computation.
Defined.

End OnExamples.
